(** * The n-tuple network agent of agent.h

    A shallow embedding of [agent], [weight_agent], [Feature],
    [IsoFeature], [ntuple] and the sliders (agent.h), with the statements
    of their specification.

    Conventions of the embedding.
    - [int] and [board::reward] values are [Z]; the accumulator of
      [Feature::operator()] is a [long long], whose shift is written with
      its 64-bit wrap-around.
    - [float] and [double] values are the IEEE 754 binary32 and binary64
      numbers of the library ([spec_float]), with the library's
      operations, which round to nearest, ties to even; the infinities,
      NaN and the two zeros are values like the others.  A conversion is
      written wherever the source has one: a [float] or an [int] operand
      is converted to [double] before an operation on [double], and a
      [double] stored in a [float] is rounded.  Every operation on
      [double] rounds to binary64, as where [FLT_EVAL_METHOD] is 0.
    - A [std::vector] read with [operator[]] outside its bounds is
      undefined in the source; the model reads a default there and the
      theorems state the bounds they need.
    - [board.h], [action.h] and [weight.h] are not part of the sources at
      hand; what the agent uses of them is modelled from the specification
      or taken as a parameter, and marked so. *)

From Stdlib Require Import ZArith List Lia String Ascii SpecFloat.
From stdpp Require Import gmap strings list.

Local Open Scope Z_scope.

(** ** Machine integers *)

Definition wrap (w : Z) (x : Z) : Z :=
  (x + 2 ^ (w - 1)) mod 2 ^ w - 2 ^ (w - 1).

Definition wrap32 : Z -> Z := wrap 32.
Definition wrap64 : Z -> Z := wrap 64.

(** ** Floating-point numbers *)

(** [float] is binary32, a mantissa of 24 bits, and [double] binary64, a
    mantissa of 53 bits. *)
Definition float : Type := spec_float.
Definition double : Type := spec_float.

(** The operations on [double] the agent uses: [+], [-], [*], [/] and
    [<]. *)
Definition double_add : double -> double -> double := SFadd 53 1024.
Definition double_sub : double -> double -> double := SFsub 53 1024.
Definition double_mul : double -> double -> double := SFmul 53 1024.
Definition double_div : double -> double -> double := SFdiv 53 1024.
Definition double_ltb : double -> double -> bool := SFltb.

(** The conversions: of an [int] to [double] and of a [float] to
    [double], both exact, and of a [double] to [float], which rounds. *)
Definition double_of_int (n : Z) : double := binary_normalize 53 1024 n 0 false.

Definition double_of_float (x : float) : double :=
  match x with
  | S754_finite s m e => binary_round 53 1024 s m e
  | _ => x
  end.

Definition float_of_double (x : double) : float :=
  match x with
  | S754_finite s m e => binary_round 24 128 s m e
  | _ => x
  end.

(** ** The board *)

(** Modelled from the spec: [board.h] is missing.  A board state is 16
    cells in row-major 4x4 order, each holding a tile rank, 0 for an empty
    cell (spec, section 3). *)
Definition board : Type := list Z.

(** [board(i)]: the collaborator's [cellValue(position)]. *)
Definition board_at (b : board) (i : Z) : Z := nth (Z.to_nat i) b 0.

Definition cells : list Z := map Z.of_nat (seq 0 16).

(** ** Feature *)

Module Feature.

(** The loop [for(int i=0;i<16;i++) if(board(i) == 0) empty++;]. *)
Definition count_empty (b : board) : Z :=
  fold_left (fun empty i => if board_at b i =? 0 then empty + 1 else empty)
            cells 0.

(** One turn of the loop over the positions: [idx <<= 4] and then
    [idx |= empty] or [idx |= board(feat)]. *)
Definition index_step (b : board) (empty : Z) (idx feat : Z) : Z :=
  let idx := wrap64 (Z.shiftl idx 4) in
  if feat =? -1 then Z.lor idx empty else Z.lor idx (board_at b feat).

(** [Feature::operator()]. *)
Definition index (feature : list Z) (b : board) : Z :=
  fold_left (index_step b (count_empty b)) feature 0.

(** The loop state of [Feature::hash]: the bits [i] and the [flag]. *)
Definition hash_step (st : Z * bool) (k : Z) : Z * bool :=
  let '(i, flag) := st in
  if k =? -1 then (i, true) else (Z.lor i (wrap32 (Z.shiftl 1 k)), flag).

(** [Feature::hash]. *)
Definition hash (feature : list Z) : Z :=
  let '(i, flag) := fold_left hash_step feature (0, false) in
  if flag then - i else i.

(** [Feature::operator==]. *)
Definition eqb (f g : list Z) : bool := hash f =? hash g.

End Feature.

(** ** IsoFeature *)

Module IsoFeature.

Definition _right_rotation_matching : list Z :=
  [12; 8; 4; 0; 13; 9; 5; 1; 14; 10; 6; 2; 15; 11; 7; 3].

Definition _reflection_matching : list Z :=
  [15; 11; 7; 3; 14; 10; 6; 2; 13; 9; 5; 1; 12; 8; 4; 0].

(** [table[i]] on one of the two matching tables. *)
Definition matching (table : list Z) (i : Z) : Z := nth (Z.to_nat i) table 0.

(** The common loop of [left_rotate] and [reflection]: the sentinel is
    skipped, every other position is pushed through the table. *)
Definition remap (table : list Z) (feat : list Z) : list Z :=
  fold_left (fun vec i => if i =? -1 then vec else vec ++ [matching table i])
            feat [].

Definition left_rotate : list Z -> list Z := remap _right_rotation_matching.
Definition reflection : list Z -> list Z := remap _reflection_matching.

(** The vector [iso] of [create_iso_feature]: pairs of a hash and a
    feature. *)
Definition entry : Type := (Z * list Z)%type.

(** The first loop: rotate, then push; five times. *)
Fixpoint rotate_push (n : nat) (tmp : list Z) (iso : list entry)
  : list Z * list entry :=
  match n with
  | O => (tmp, iso)
  | S n =>
      let tmp := left_rotate tmp in
      rotate_push n tmp (iso ++ [(Feature.hash tmp, tmp)])
  end.

(** The second loop: push, then rotate; four times. *)
Fixpoint push_rotate (n : nat) (tmp : list Z) (iso : list entry)
  : list Z * list entry :=
  match n with
  | O => (tmp, iso)
  | S n =>
      push_rotate n (left_rotate tmp) (iso ++ [(Feature.hash tmp, tmp)])
  end.

(** The comparator handed to [std::sort]: [a.first > b.first]. *)
Definition before (a b : entry) : bool := fst b <? fst a.

(** [std::sort] on at most nine entries, as the insertion sort the
    standard libraries run on short ranges; entries the comparator does
    not order keep their relative order. *)
Fixpoint insert_sorted (x : entry) (l : list entry) : list entry :=
  match l with
  | [] => [x]
  | y :: l' => if before x y then x :: l else y :: insert_sorted x l'
  end.

Definition sort (l : list entry) : list entry :=
  fold_left (fun acc x => insert_sorted x acc) l [].

(** [operator==] of [std::pair<int,Feature>]. *)
Definition entry_eqb (a b : entry) : bool :=
  (fst a =? fst b) && Feature.eqb (snd a) (snd b).

(** [std::unique]: every element is compared with the last one kept,
    and dropped when equal to it. *)
Fixpoint unique_from (kept : entry) (l : list entry) : list entry :=
  match l with
  | [] => []
  | y :: l' =>
      if entry_eqb kept y then unique_from kept l' else y :: unique_from y l'
  end.

Definition unique (l : list entry) : list entry :=
  match l with
  | [] => []
  | x :: l' => x :: unique_from x l'
  end.

(** [IsoFeature::create_iso_feature], returning [iso_feature]. *)
Definition create_iso_feature (feat : list Z) : list (list Z) :=
  let with_hint := existsb (Z.eqb (-1)) feat in
  let '(tmp, iso) := rotate_push 5 feat [] in
  let tmp := reflection tmp in
  let '(tmp, iso) := push_rotate 4 tmp iso in
  let iso := unique (sort iso) in
  map (fun f : entry => if with_hint then snd f ++ [-1] else snd f) iso.

End IsoFeature.

(** ** The agent base class *)

(** What a constructor or destructor can end in: it returns, or the
    process leaves through [std::exit], or an exception of the standard
    library escapes. *)
Inductive outcome (A : Type) : Type :=
| Returned (a : A)
| Exited (status : Z)
| Thrown.

Arguments Returned {A} a.
Arguments Exited {A} status.
Arguments Thrown {A}.

Definition bind {A B : Type} (m : outcome A) (k : A -> outcome B) : outcome B :=
  match m with
  | Returned a => k a
  | Exited status => Exited status
  | Thrown => Thrown
  end.

Notation "x <- m ;; k" := (bind m (fun x => k))
  (at level 100, m at next level, right associativity).

Module agent.

(** The part of [pair] before the first ['=']: [pair.substr(0,
    pair.find('='))]; the whole of it when there is none. *)
Fixpoint key_of (pair : string) : string :=
  match pair with
  | EmptyString => EmptyString
  | String c rest =>
      if Ascii.eqb c "="%char then EmptyString else String c (key_of rest)
  end.

(** The part after the first ['=']. *)
Fixpoint after_eq (pair : string) : option string :=
  match pair with
  | EmptyString => None
  | String c rest => if Ascii.eqb c "="%char then Some rest else after_eq rest
  end.

(** [pair.substr(pair.find('=') + 1)]: without an ['='], [find] gives
    [npos], [npos + 1] is 0 and the value is the whole of [pair]. *)
Definition value_of (pair : string) : string :=
  match after_eq pair with
  | Some v => v
  | None => pair
  end.

(** [meta[key] = { value }]. *)
Definition assign (meta : gmap string string) (pair : string)
  : gmap string string :=
  <[key_of pair := value_of pair]> meta.

(** [agent::agent]: the words of ["name=unknown role=unknown " + args],
    assigned from left to right. *)
Definition new (args : string) : gmap string string :=
  fold_left assign (String.words ("name=unknown role=unknown " +:+ args)) ∅.

(** [agent::notify]. *)
Definition notify (meta : gmap string string) (msg : string)
  : gmap string string :=
  assign meta msg.

End agent.

(** ** Weight tables *)

(** Modelled from the spec: [weight.h] is missing.  A weight table is a
    dense array of fixed-width floating-point values, [float], with one
    entry for every index (spec, sections 3 and 6); its length is left out
    of the model. *)
Definition weight : Type := Z -> float.

(** [weight(size)]: a table of zeros. *)
Definition weight_zero : weight := fun _ => S754_zero false.

(** [w[idx] += tg] with [tg] a [double]: the entry is converted to
    [double], the sum is taken in [double] and stored as a [float]. *)
Definition weight_add (w : weight) (idx : Z) (tg : double) : weight :=
  fun j =>
    if j =? idx
    then float_of_double (double_add (double_of_float (w j)) tg)
    else w j.

(** [net[i][idx]].  Outside the vector [net] the source has no defined
    result; the model reads a zero there, and the theorems on the value
    and the update ask for a table for every base feature. *)
Definition net_at (net : list weight) (i : nat) (idx : Z) : float :=
  from_option (fun w : weight => w idx) (S754_zero false) (net !! i).

(** [net[i][idx] += tg]; outside the vector [net], where the source has
    no defined result, the model writes nothing. *)
Definition net_add (net : list weight) (i : nat) (idx : Z) (tg : double)
  : list weight :=
  match net !! i with
  | Some w => <[i := weight_add w idx tg]> net
  | None => net
  end.

(** ** weight_agent *)

(** The members [meta], [net] and [float alpha]. *)
Record weight_agent : Type := mk_weight_agent {
  wa_meta : gmap string string;
  wa_net : list weight;
  wa_alpha : float
}.

Section WeightAgent.

(** The files and the conversions the class goes through, none of them
    code of agent.h: [std::stod]; opening a file for reading
    ([None]: [is_open()] is false) and for writing; reading and writing
    the [uint32_t] count; the stream operators of [weight]. *)
Variable stod : string -> option double.
Variable file : Type.
Variable open_in : string -> option file.
Variable read_u32 : file -> Z * file.
Variable read_weight : file -> weight -> weight * file.
Variable open_out : string -> option file.
Variable write_u32 : file -> Z -> file.
Variable write_weight : file -> weight -> file.

(** [if (!std::isdigit(ch)) ch = ' ';] *)
Definition blank_non_digit (ch : ascii) : ascii :=
  match Ascii.is_nat ch with
  | Some _ => ch
  | None => " "%char
  end.

Fixpoint map_string (f : ascii -> ascii) (s : string) : string :=
  match s with
  | EmptyString => EmptyString
  | String c rest => String (f c) (map_string f rest)
  end.

(** The value of a word of digits. *)
Definition digits_value (word : string) : Z :=
  fold_left (fun n ch => 10 * n + Z.of_nat (default 0%nat (Ascii.is_nat ch)))
            (list_ascii_of_string word) 0.

(** [for (size_t size; in >> size; net.emplace_back(size));] the loop
    ends at the first word that does not fit a [size_t]. *)
Fixpoint emplace_sizes (sizes : list string) (net : list weight)
  : list weight :=
  match sizes with
  | [] => net
  | word :: rest =>
      if digits_value word <? 2 ^ 64
      then emplace_sizes rest (net ++ [weight_zero])
      else net
  end.

(** [weight_agent::init_weights]. *)
Definition init_weights (info : string) (net : list weight) : list weight :=
  emplace_sizes (String.words (map_string blank_non_digit info)) net.

(** [net.resize(size)]. *)
Definition resize (size : Z) (net : list weight) : list weight :=
  take (Z.to_nat size) net
    ++ replicate (Z.to_nat size - length net) weight_zero.

(** [for (weight& w : net) in >> w;] *)
Fixpoint read_weights (f : file) (net : list weight) : list weight :=
  match net with
  | [] => []
  | w :: rest =>
      let '(w', f') := read_weight f w in
      w' :: read_weights f' rest
  end.

(** [weight_agent::load_weights]. *)
Definition load_weights (path : string) (net : list weight)
  : outcome (list weight) :=
  match open_in path with
  | None => Exited (-1)
  | Some f =>
      let '(size, f) := read_u32 f in
      Returned (read_weights f (resize size net))
  end.

(** [weight_agent::save_weights]; what it returns is the file written. *)
Definition save_weights (path : string) (net : list weight) : outcome file :=
  match open_out path with
  | None => Exited (-1)
  | Some f =>
      let f := write_u32 f (Z.of_nat (length net) mod 2 ^ 32) in
      Returned (fold_left write_weight net f)
  end.

(** [float(meta["alpha"])]: the conversion operator of [agent::value],
    [numeric(std::stod(value))] with [float] for [numeric]: the [double]
    of [std::stod], rounded to a [float]. *)
Definition to_numeric (value : string) : outcome float :=
  match stod value with
  | Some x => Returned (float_of_double x)
  | None => Thrown
  end.

(** [weight_agent::weight_agent]. *)
Definition weight_agent_new (args : string) : outcome weight_agent :=
  let meta := agent.new args in
  let net := [] in
  let alpha := S754_zero false in
  net <- match meta !! "init" with
         | Some info => Returned (init_weights info net)
         | None => Returned net
         end ;;
  net <- match meta !! "load" with
         | Some path => load_weights path net
         | None => Returned net
         end ;;
  alpha <- match meta !! "alpha" with
           | Some value => to_numeric value
           | None => Returned alpha
           end ;;
  Returned (mk_weight_agent meta net alpha).

(** [weight_agent::~weight_agent]; [None] when nothing is saved. *)
Definition weight_agent_delete (a : weight_agent) : outcome (option file) :=
  match wa_meta a !! "save" with
  | Some path => f <- save_weights path (wa_net a) ;; Returned (Some f)
  | None => Returned None
  end.

End WeightAgent.

(** ** ntuple *)

Definition feats : list (list Z) :=
  [ [0; 1; 2; 3; 4; 5];
    [4; 5; 6; 7; 8; 9];
    [5; 6; 7; 9; 10; 11];
    [9; 10; 11; 13; 14; 15] ].

(** [typedef std::pair<board,board::reward> target;] *)
Definition target : Type := (board * Z)%type.

(** Modelled from the spec: [action.h] is missing.  [take_action] returns
    the chosen move, [action::slide(op)], or the null action [action()]. *)
Inductive action : Type :=
| action_slide (op : Z)
| action_null.

(** The members of [ntuple], those it inherits first.  [history] is the
    stack, its top at the head of the list. *)
Record ntuple : Type := mk_ntuple {
  meta : gmap string string;
  net : list weight;
  alpha : float;
  features : list (list (list Z));
  feature_num : Z;
  op_code : list Z;
  history : list target
}.

Definition set_net (a : ntuple) (net' : list weight) : ntuple :=
  mk_ntuple (meta a) net' (alpha a) (features a) (feature_num a) (op_code a)
            (history a).

Definition set_history (a : ntuple) (history' : list target) : ntuple :=
  mk_ntuple (meta a) (net a) (alpha a) (features a) (feature_num a) (op_code a)
            history'.

(** The pairs [(i, features[i])] the loops [for(int i=0;i<features.size();i++)]
    go through. *)
Definition enumerate {A : Type} (l : list A) : list (nat * A) :=
  combine (seq 0 (length l)) l.

(** [feature_num] as the constructor counts it. *)
Definition count_features (features : list (list (list Z))) : Z :=
  fold_left (fun n f => wrap32 (n + Z.of_nat (length f))) features 0.

Section NTuple.

Variable stod : string -> option double.
Variable file : Type.
Variable open_in : string -> option file.
Variable read_u32 : file -> Z * file.
Variable read_weight : file -> weight -> weight * file.

(** [ntuple::ntuple]. *)
Definition ntuple_new (args : string) : outcome ntuple :=
  base <- weight_agent_new stod file open_in read_u32 read_weight args ;;
  let features := map IsoFeature.create_iso_feature feats in
  Returned (mk_ntuple (wa_meta base) (wa_net base) (wa_alpha base)
                      features (count_features features) [0; 1; 2; 3] []).

End NTuple.

(** [ntuple::get_value]: [double sum = 0.0] and, for every feature of
    every orbit, [sum += net[i][idx]]. *)
Definition get_value (a : ntuple) (b : board) : double :=
  fold_left
    (fun sum '(i, iso) =>
       fold_left
         (fun sum f =>
            double_add sum
              (double_of_float (net_at (net a) i (Feature.index f b))))
         iso sum)
    (enumerate (features a)) (S754_zero false).

(** [ntuple::update_weight]:
    [tg = alpha/(double)(feature_num) * (target - value)], in [double]. *)
Definition update_weight (a : ntuple) (target : double) (curr : board)
  : ntuple :=
  let value := get_value a curr in
  let tg :=
    double_mul
      (double_div (double_of_float (alpha a)) (double_of_int (feature_num a)))
      (double_sub target value) in
  set_net a
    (fold_left
       (fun net '(i, iso) =>
          fold_left (fun net f => net_add net i (Feature.index f curr) tg)
                    iso net)
       (enumerate (features a)) (net a)).

(** [ntuple::open_episode]. *)
Fixpoint pop_all (h : list target) : list target :=
  match h with
  | [] => []
  | _ :: h' => pop_all h'
  end.

Definition open_episode (a : ntuple) : ntuple :=
  set_history a (pop_all (history a)).

(** A call of [update_weight]: its target and its board. *)
Definition call : Type := (double * board)%type.

(** The [while(!history.empty())] loop of [close_episode], on the stack
    [h]; [calls] records the calls of [update_weight] made so far. *)
Fixpoint close_episode_loop (a : ntuple) (prev : board) (h : list target)
  (calls : list call) : ntuple * list call :=
  match h with
  | [] => (a, calls)
  | current :: h' =>
      let a := set_history a h' in
      let tg := double_add (double_of_int (snd current)) (get_value a prev) in
      let a := update_weight a tg (fst current) in
      close_episode_loop a (fst current) h' (calls ++ [(tg, fst current)])
  end.

(** [ntuple::close_episode], with the calls of [update_weight] it makes,
    in order.  [history.top()] on an empty stack is undefined: [None]. *)
Definition close_episode (a : ntuple) : option (ntuple * list call) :=
  match history a with
  | [] => None
  | current :: h =>
      let a := set_history a h in
      let a := update_weight a (double_of_int 0) (fst current) in
      Some (close_episode_loop a (fst current) h
              [(double_of_int 0, fst current)])
  end.

Section TakeAction.

(** [board::slide] on a copy of the board: the board it leaves and the
    reward, -1 for an illegal move.  Not code of agent.h. *)
Variable slide : board -> Z -> board * Z.

(** The locals [best], [best_op] and [rew] of [take_action]; [rew] is
    read only after it has been assigned. *)
Definition choice : Type := (double * Z * Z)%type.

(** One turn of [for(int op : op_code)]. *)
Definition try_op (a : ntuple) (before : board) (st : choice) (op : Z)
  : choice :=
  let '(best, best_op, rew) := st in
  let '(after, reward) := slide before op in
  if negb (reward =? -1) then
    let estimate := double_add (get_value a after) (double_of_int reward) in
    if double_ltb best estimate then (estimate, op, reward) else st
  else st.

(** [ntuple::take_action]; [double best = -1]. *)
Definition take_action (a : ntuple) (before : board) : action * ntuple :=
  let '(best, best_op, rew) :=
    fold_left (try_op a before) (op_code a) (double_of_int (-1), -1, 0) in
  if negb (best_op =? -1)
  then (action_slide best_op, set_history a ((before, rew) :: history a))
  else (action_null, set_history a ((before, 0) :: history a)).

End TakeAction.

(** ** The accessors of agent *)

(** [agent::property]: [meta.at(key)], which throws [std::out_of_range]
    for a key that is not in the map. *)
Definition property (meta : gmap string string) (key : string)
  : outcome string :=
  match meta !! key with
  | Some value => Returned value
  | None => Thrown
  end.

(** [agent::name] and [agent::role]. *)
Definition name (meta : gmap string string) : outcome string :=
  property meta "name".

Definition role (meta : gmap string string) : outcome string :=
  property meta "role".

(** ** The sliders without weights *)

Section Sliders.

(** [board::slide], as for [ntuple::take_action]; the random engine and
    [std::shuffle] on the array [opcode].  None is code of agent.h. *)
Variable slide : board -> Z -> board * Z.
Variable engine : Type.
Variable shuffle : list Z -> engine -> list Z * engine.

(** The loop of [random_slider::take_action]: the first move of [opcode]
    whose reward is not -1, the null action when there is none. *)
Fixpoint first_legal (before : board) (opcode : list Z) : action :=
  match opcode with
  | [] => action_null
  | op :: rest =>
      if negb (snd (slide before op) =? -1) then action_slide op
      else first_legal before rest
  end.

(** [random_slider::take_action], on the members [opcode] and [engine]. *)
Definition random_slider_take_action (st : list Z * engine) (before : board)
  : action * (list Z * engine) :=
  let st := shuffle (fst st) (snd st) in
  (first_legal before (fst st), st).

(** One turn of the loop of [greedy_slider::take_action], on the locals
    [maximum_reward] and [best_op]. *)
Definition greedy_step (before : board) (st : Z * Z) (op : Z) : Z * Z :=
  let '(maximum_reward, best_op) := st in
  let op_reward := snd (slide before op) in
  if maximum_reward <? op_reward then (op_reward, op) else st.

Definition greedy_choice (opcode : list Z) (before : board) : Z :=
  snd (fold_left (greedy_step before) opcode (0, -1)).

(** [greedy_slider::take_action]. *)
Definition greedy_slider_take_action (before : board) : action :=
  action_slide (greedy_choice [0; 1; 2; 3] before).

(** One turn of the loop of [MR_greedy_slider::take_action]. *)
Definition MR_greedy_step (before : board) (st : Z * Z) (op : Z) : Z * Z :=
  let '(maximum_reward, best_op) := st in
  let op_reward := snd (slide before op) in
  if maximum_reward <=? op_reward then (op_reward, op) else st.

(** [MR_greedy_slider::take_action]. *)
Definition MR_greedy_slider_take_action (before : board) : action :=
  let best_op := snd (fold_left (MR_greedy_step before) [1; 2] (0, -1)) in
  if best_op =? -1 then
    let zero_rew := snd (slide before 0) in
    let three_rew := snd (slide before 3) in
    if (zero_rew =? -1) && (three_rew =? -1) then action_null
    else if zero_rew =? -1 then action_slide 3
    else if three_rew =? -1 then action_slide 0
    else if zero_rew <? three_rew then action_slide 3 else action_slide 0
  else action_slide best_op.

(** [INT16_MAX]. *)
Definition INT16_MAX : Z := 32767.

(** One turn of the loop of [ungreedy_slider::take_action], on the locals
    [minimum_reward] and [best_op]. *)
Definition ungreedy_step (before : board) (st : Z * Z) (op : Z) : Z * Z :=
  let '(minimum_reward, best_op) := st in
  let op_reward := snd (slide before op) in
  if (op_reward <? minimum_reward) && (0 <=? op_reward)
  then (op_reward, op) else st.

Definition ungreedy_choice (opcode : list Z) (before : board) : Z :=
  snd (fold_left (ungreedy_step before) opcode (INT16_MAX, -1)).

(** [ungreedy_slider::take_action]. *)
Definition ungreedy_slider_take_action (before : board) : action :=
  action_slide (ungreedy_choice [0; 1; 2; 3] before).

(** [alternating_greedy_slider]: [take_action_greedily],
    [take_action_ungreedily] and [take_action] on the member
    [alternating]. *)
Definition take_action_greedily (before : board) : action :=
  action_slide (greedy_choice [0; 1; 2; 3] before).

Definition take_action_ungreedily (before : board) : action :=
  action_slide (ungreedy_choice [0; 1; 2; 3] before).

Definition alternating_take_action (alternating : bool) (before : board)
  : action * bool :=
  let alternating := negb alternating in
  (if alternating then take_action_greedily before
   else take_action_ungreedily before,
   alternating).

End Sliders.

(** ** Notions the statements use *)

(** A position of a feature: a cell of the board, or the sentinel -1. *)
Definition cell_pos (k : Z) : Prop := 0 <= k < 16.
Definition position (k : Z) : Prop := -1 <= k < 16.

(** The positions that are cells. *)
Definition real (k : Z) : bool := negb (k =? -1).
Definition reals (feat : list Z) : list Z := List.filter real feat.
Definition with_hint (feat : list Z) : bool := existsb (Z.eqb (-1)) feat.

(** The sentinel [create_iso_feature] pushes back. *)
Definition hint_slot (feat : list Z) : list Z :=
  if with_hint feat then [-1] else [].

(** The bit of a cell in a hash, and the bits of a list of cells. *)
Definition bit (k : Z) : Z := wrap32 (Z.shiftl 1 k).
Definition mask (l : list Z) : Z :=
  fold_right (fun k acc => Z.lor (bit k) acc) 0 l.

(** A position pushed through a sequence of matching tables, and a
    feature pushed through it by [left_rotate] and [reflection]. *)
Definition apply_path (path : list (list Z)) (k : Z) : Z :=
  fold_left (fun k table => IsoFeature.matching table k) path k.

Definition through (path : list (list Z)) (feat : list Z) : list Z :=
  fold_left (fun x table => IsoFeature.remap table x) path feat.

(** The nine sequences of tables [create_iso_feature] goes through: one
    to five rotations, then five rotations, the reflection and zero to
    three rotations. *)
Definition paths : list (list (list Z)) :=
  let R := IsoFeature._right_rotation_matching in
  let F := IsoFeature._reflection_matching in
  [ [R]; [R; R]; [R; R; R]; [R; R; R; R]; [R; R; R; R; R];
    [R; R; R; R; R; F]; [R; R; R; R; R; F; R]; [R; R; R; R; R; F; R; R];
    [R; R; R; R; R; F; R; R; R] ].

(** The image of a set of cells, given by its bits, under a table. *)
Fixpoint image_bits (m : Z) (bits : list Z) : Z :=
  match bits with
  | [] => 0
  | s :: rest => Z.lor (if Z.odd m then s else 0) (image_bits (Z.div2 m) rest)
  end.

Definition table_bits (table : list Z) : list Z :=
  map (fun i => bit (IsoFeature.matching table i)) cells.

Definition perm_mask (table : list Z) (m : Z) : Z :=
  image_bits m (table_bits table).

Definition rotation_bits : list Z :=
  Eval vm_compute in table_bits IsoFeature._right_rotation_matching.
Definition reflection_bits : list Z :=
  Eval vm_compute in table_bits IsoFeature._reflection_matching.

(** The hashes of the nine entries of [iso], from the bits of the base
    feature. *)
Definition orbit_hashes (m : Z) : list Z :=
  let R m := image_bits m rotation_bits in
  let F m := image_bits m reflection_bits in
  let m1 := R m in let m2 := R m1 in let m3 := R m2 in let m4 := R m3 in
  let m5 := R m4 in
  let f0 := F m5 in let f1 := R f0 in let f2 := R f1 in let f3 := R f2 in
  [m1; m2; m3; m4; m5; f0; f1; f2; f3].

(** Sorting and removing neighbours on the hashes alone. *)
Fixpoint insert_hash (x : Z) (l : list Z) : list Z :=
  match l with
  | [] => [x]
  | y :: l' => if y <? x then x :: l else y :: insert_hash x l'
  end.

Definition sort_hashes (l : list Z) : list Z :=
  fold_left (fun acc x => insert_hash x acc) l [].

Fixpoint unique_hashes_from (kept : Z) (l : list Z) : list Z :=
  match l with
  | [] => []
  | y :: l' =>
      if kept =? y then unique_hashes_from kept l'
      else y :: unique_hashes_from y l'
  end.

Definition unique_hashes (l : list Z) : list Z :=
  match l with
  | [] => []
  | x :: l' => x :: unique_hashes_from x l'
  end.

Definition orbit_size (m : Z) : nat :=
  length (unique_hashes (sort_hashes (orbit_hashes m))).

Definition divides_8 (n : nat) : bool :=
  (Nat.eqb n 1 || Nat.eqb n 2 || Nat.eqb n 4 || Nat.eqb n 8)%bool.

Fixpoint all_from (n : nat) (m : Z) : bool :=
  match n with
  | O => true
  | S n => divides_8 (orbit_size m) && all_from n (m + 1)
  end.

(** One of the two matching tables. *)
Definition table (t : list Z) : Prop :=
  t = IsoFeature._right_rotation_matching \/
  t = IsoFeature._reflection_matching.

(** An entry of [iso] whose first component is the hash of its second, as
    [std::make_pair(tmp.hash(),tmp)] builds it. *)
Definition consistent (e : IsoFeature.entry) : Prop :=
  fst e = Feature.hash (snd e).

(** The nine features [create_iso_feature] pushes into [iso], in order. *)
Definition variants (feat : list Z) : list (list Z) :=
  map (fun p => through p feat) paths.

Definition make_entry (v : list Z) : IsoFeature.entry := (Feature.hash v, v).

(** The pairs of a base feature and one of its variants, in the order the
    loops of [get_value] and [update_weight] visit them. *)
Definition slots (features : list (list (list Z))) : list (nat * list Z) :=
  flat_map (fun '(i, iso) => map (pair i) iso) (enumerate features).

(** How many of these pairs address the entry [idx] of table [i] on the
    board [b]. *)
Definition hits (features : list (list (list Z))) (b : board) (i : nat)
  (idx : Z) : nat :=
  length (List.filter
            (fun '(j, f) => Nat.eqb j i && (Feature.index f b =? idx))
            (slots features)).

(** What one [+= tg] leaves in an entry that held [w]. *)
Definition step (tg : double) (w : float) : float :=
  float_of_double (double_add (double_of_float w) tg).

(** The step [update_weight] adds:
    [alpha/(double)(feature_num) * (target - value)]. *)
Definition delta (a : ntuple) (target : double) (curr : board) : double :=
  double_mul
    (double_div (double_of_float (alpha a)) (double_of_int (feature_num a)))
    (double_sub target (get_value a curr)).

(** The agent after a list of calls of [update_weight]. *)
Definition replay (a : ntuple) (calls : list call) : ntuple :=
  fold_left (fun a c => update_weight a (fst c) (snd c)) calls a.

(** A number of the format binary32; a zero of either sign; a number
    that is neither an infinity nor NaN. *)
Definition is_float (x : float) : Prop := valid_binary 24 128 x = true.

Definition is_zero (x : spec_float) : bool :=
  match x with
  | S754_zero _ => true
  | _ => false
  end.

Definition finite (x : spec_float) : bool :=
  match x with
  | S754_zero _ | S754_finite _ _ _ => true
  | _ => false
  end.

(** Two numbers are the same but for the sign of a zero. *)
Definition same_number (x y : spec_float) : Prop :=
  x = y \/ (is_zero x = true /\ is_zero y = true).

(** The entries of two agents' weight tables are the same numbers. *)
Definition same_weights (a a' : ntuple) : Prop :=
  forall i idx, same_number (net_at (net a) i idx) (net_at (net a') i idx).

(** The place of a number in the order of [<]: the sign first, then the
    exponent, then the mantissa. *)
Definition rank (x : spec_float) : Z * Z * Z :=
  match x with
  | S754_zero _ => (0, 0, 0)
  | S754_infinity s => (if s then -2 else 2, 0, 0)
  | S754_nan => (0, 0, 0)
  | S754_finite s m e => if s then (-1, - e, - Zpos m) else (1, e, Zpos m)
  end.

Definition below (x y : Z * Z * Z) : Prop :=
  fst (fst x) < fst (fst y) \/
  (fst (fst x) = fst (fst y) /\
   (snd (fst x) < snd (fst y) \/
    (snd (fst x) = snd (fst y) /\ snd x < snd y))).

(** The board read through a permutation of the cells. *)
Definition transform (sigma : Z -> Z) (b : board) : board :=
  map (fun i => board_at b (sigma i)) cells.

(** The moves of [take_action]: legal ones and their estimates. *)
Definition reward_of (slide : board -> Z -> board * Z) (before : board)
  (op : Z) : Z :=
  snd (slide before op).

Definition legal (slide : board -> Z -> board * Z) (before : board) (op : Z)
  : Prop :=
  reward_of slide before op <> -1.

Definition estimate (slide : board -> Z -> board * Z) (a : ntuple)
  (before : board) (op : Z) : double :=
  double_add (get_value a (fst (slide before op)))
             (double_of_int (reward_of slide before op)).

(** [op] is the first of the legal moves of [ops] with the largest
    estimate: a legal move before it has a smaller estimate, or one that
    is NaN, and no legal move after it has a larger one. *)
Definition first_best (slide : board -> Z -> board * Z) (a : ntuple)
  (before : board) (ops : list Z) (op : Z) : Prop :=
  exists l1 l2,
    ops = l1 ++ op :: l2 /\
    legal slide before op /\
    (forall o, In o l1 -> legal slide before o ->
               double_ltb (estimate slide a before o)
                          (estimate slide a before op) = true \/
               estimate slide a before o = S754_nan) /\
    (forall o, In o l2 -> legal slide before o ->
               double_ltb (estimate slide a before op)
                          (estimate slide a before o) = false).

(** The agent after [take_action] on each board of a list. *)
Definition play (slide : board -> Z -> board * Z) (a : ntuple)
  (boards : list board) : ntuple :=
  fold_left (fun a b => snd (take_action slide a b)) boards a.

(** The backward pass in the words of the specification (section 4.5,
    step 3): while the trajectory is not empty, pop [(state, reward)], take
    [target = reward + value(previous)] on the weights as they are now,
    call [updateWeight(target, state)], and go on with [previous = state]. *)
Fixpoint backward_calls (a : ntuple) (previous : board)
  (trajectory : list target) : list call :=
  match trajectory with
  | [] => []
  | (state, reward) :: rest =>
      let target := double_add (double_of_int reward) (get_value a previous) in
      (target, state)
        :: backward_calls (update_weight a target state) state rest
  end.

(** A pair of [slots] with its feature read through a permutation of the
    cells. *)
Definition slot_through (sigma : Z -> Z) (x : nat * list Z) : nat * list Z :=
  (fst x, map sigma (snd x)).

(** The pairs of the base features other than the third. *)
Definition outside_block (l : list (nat * list Z)) : list (nat * list Z) :=
  List.filter (fun x => negb (Nat.eqb (fst x) 2)) l.

Definition cells_only (f : list Z) : bool :=
  forallb (fun k => (0 <=? k) && (k <? 16)) f.

(** A string without white space, and one without ['=']. *)
Fixpoint spaceless (s : string) : bool :=
  match s with
  | EmptyString => true
  | String c rest => negb (Ascii.is_space c) && spaceless rest
  end.

Fixpoint no_eq (s : string) : bool :=
  match s with
  | EmptyString => true
  | String c rest => negb (Ascii.eqb c "="%char) && no_eq rest
  end.

(** What [Feature::operator()] reads for a position: the count of empty
    cells for the sentinel, the rank of the cell otherwise. *)
Definition read (b : board) (k : Z) : Z :=
  if k =? -1 then Feature.count_empty b else board_at b k.

(** The number a list of hexadecimal digits writes, the first digit being
    the most significant. *)
Definition digits (ds : list Z) : Z :=
  fold_left (fun n d => 16 * n + d) ds 0.

(** The sign [create_iso_feature] gives the hashes of an orbit. *)
Definition signed (feat : list Z) (h : Z) : Z :=
  if with_hint feat then - h else h.

(** A hexadecimal digit. *)
Definition nibble (d : Z) : Prop := 0 <= d < 16.

(** Lists of hashes in decreasing order, with and without repetitions. *)
Fixpoint nonincreasing (l : list Z) : Prop :=
  match l with
  | [] => True
  | x :: l' => (forall y, In y l' -> y <= x) /\ nonincreasing l'
  end.

Fixpoint decreasing (l : list Z) : Prop :=
  match l with
  | [] => True
  | x :: l' => (forall y, In y l' -> y < x) /\ decreasing l'
  end.

(** The table and the index a pair of [slots] addresses on a board. *)
Definition address (b : board) (x : nat * list Z) : nat * Z :=
  (fst x, Feature.index (snd x) b).

(** How many pairs of [slots], one read on [s'] and one on [s], address
    the same entry. *)
Definition overlap (features : list (list (list Z))) (s s' : board) : nat :=
  fold_right
    (fun x n => (hits features s (fst x) (Feature.index (snd x) s') + n)%nat)
    0%nat (slots features).

(** The value of a board on tables whose entries are read through [g]:
    the sum of [get_value], in the order of its loops. *)
Definition value_through (g : float -> float) (a : ntuple) (b : board)
  : double :=
  fold_left
    (fun sum x =>
       double_add sum
         (double_of_float
            (g (net_at (net a) (fst x) (Feature.index (snd x) b)))))
    (slots (features a)) (S754_zero false).

(** [op] is the first of the moves of [ops] with the largest reward. *)
Definition first_largest (r : Z -> Z) (ops : list Z) (op : Z) : Prop :=
  exists l1 l2,
    ops = l1 ++ op :: l2 /\
    (forall o, In o l1 -> r o < r op) /\
    (forall o, In o l2 -> r o <= r op).

(** [op] is the first of the moves of [ops] with the smallest reward
    among those whose reward is not negative. *)
Definition first_smallest (r : Z -> Z) (ops : list Z) (op : Z) : Prop :=
  exists l1 l2,
    ops = l1 ++ op :: l2 /\
    (forall o, In o l1 -> 0 <= r o -> r op < r o) /\
    (forall o, In o l2 -> 0 <= r o -> r op <= r o).

(** The answers of an [alternating_greedy_slider] to a list of boards,
    from the state [alternating]. *)
Fixpoint alternating_answers (slide : board -> Z -> board * Z)
  (alternating : bool) (boards : list board) : list action :=
  match boards with
  | [] => []
  | b :: rest =>
      let '(act, alternating) := alternating_take_action slide alternating b in
      act :: alternating_answers slide alternating rest
  end.

(** ** Sample collaborators *)

Module Sample.

(** Modelled from the spec: [board::slide] is missing, and section 6
    gives its contract only: a deterministic move that returns a
    non-negative reward, or -1 when the move is illegal.  In this sample
    every tile with an empty cell in front of it, or with a moving tile
    in front of it, moves by one cell, as in Threes!; nothing merges, the
    reward of a move is 0 and a move that changes nothing is illegal.
    The directions are 0 up, 1 right, 2 down, 3 left. *)
Definition shift_row (a b c d : Z) : list Z :=
  if a =? 0 then [b; c; d; 0]
  else if b =? 0 then [a; c; d; 0]
  else if c =? 0 then [a; b; d; 0]
  else [a; b; c; d].

Definition shift_left (b : board) : board :=
  flat_map
    (fun r => shift_row (board_at b (4 * r)) (board_at b (4 * r + 1))
                        (board_at b (4 * r + 2)) (board_at b (4 * r + 3)))
    [0; 1; 2; 3].

Definition transpose : board -> board :=
  transform (fun i => 4 * (i mod 4) + i / 4).

Definition mirror : board -> board :=
  transform (fun i => 4 * (i / 4) + (3 - i mod 4)).

Definition moved (b : board) (op : Z) : board :=
  match op with
  | 0 => transpose (shift_left (transpose b))
  | 1 => mirror (shift_left (mirror b))
  | 2 => transpose (mirror (shift_left (mirror (transpose b))))
  | 3 => shift_left b
  | _ => b
  end.

Definition slide (b : board) (op : Z) : board * Z :=
  let b' := moved b op in
  if forallb (fun i => board_at b' i =? board_at b i) cells
  then (b, -1) else (b', 0).

(** A disk of weight files: a file holds its tables, the count first. *)
Definition file : Type := list weight.
Definition read_u32 (f : file) : Z * file := (Z.of_nat (length f), f).
Definition read_weight (f : file) (w : weight) : weight * file :=
  match f with
  | [] => (w, [])
  | w' :: f' => (w', f')
  end.
Definition write_u32 (f : file) (n : Z) : file := f.
Definition write_weight (f : file) (w : weight) : file := f ++ [w].

(** [std::stod] on an unsigned decimal number without exponent: the
    digits as an integer, divided by the power of ten of the fraction. *)
Fixpoint decimal (s : string) (int : Z) (scale : option Z) : option double :=
  match s with
  | EmptyString =>
      Some (match scale with
            | Some d => double_div (double_of_int int) (double_of_int d)
            | None => double_of_int int
            end)
  | String c rest =>
      if Ascii.eqb c "."%char then
        match scale with
        | None => decimal rest int (Some 1)
        | Some _ => None
        end
      else
        match Ascii.is_nat c with
        | Some n =>
            decimal rest (10 * int + Z.of_nat n)
                    (option_map (Z.mul 10) scale)
        | None => None
        end
  end.

Definition stod (s : string) : option double :=
  match s with
  | EmptyString => None
  | _ => decimal s 0 None
  end.

(** The [float] of an integer, and the [float] nearest to 0.1. *)
Definition number (n : Z) : float := float_of_double (double_of_int n).
Definition tenth : float := S754_finite false 13421773 (-27).

(** A table that holds [x] at every index, and one that holds [x] at
    the index [at_idx] and 0 elsewhere. *)
Definition constant (x : float) : weight := fun _ => x.
Definition peak (at_idx : Z) (x : float) : weight :=
  fun idx => if idx =? at_idx then x else S754_zero false.

(** A weight file of four tables that hold -1 everywhere, and a board
    with one tile, in the top left corner. *)
Definition low_disk : gmap string file :=
  {[ "w.bin"%string := replicate 4 (constant (number (-1))) ]}.

Definition corner : board := 1 :: replicate 15 0.

(** An agent made by [ntuple::ntuple] from the arguments [args], with
    the files of [disk] to load from. *)
Definition make (disk : gmap string file) (args : string) : outcome ntuple :=
  ntuple_new stod file (fun path => disk !! path) read_u32 read_weight args.

(** The agent of the arguments [args]: four tables of zeros and the
    learning rate 0.1, as a [float]. *)
Definition args : string :=
  "init=16777216,16777216,16777216,16777216 alpha=0.1".

Definition fresh : ntuple :=
  mk_ntuple (agent.new args) (replicate 4 weight_zero) tenth
            (map IsoFeature.create_iso_feature feats) 28 [0; 1; 2; 3] [].

(** A weight file whose third table holds 1 at the index 0x123456 and 0
    elsewhere, the other tables being zero. *)
Definition peak_disk : gmap string file :=
  {[ "w.bin"%string :=
       [weight_zero; weight_zero; peak 0x123456 (number 1); weight_zero] ]}.

(** The reflection that exchanges the rows 0 and 3, and 1 and 2: five
    rotations, then the reflection table. *)
Definition flip_path : list (list Z) :=
  replicate 5 IsoFeature._right_rotation_matching
    ++ [IsoFeature._reflection_matching].

(** The agent of the arguments [args0], which name no learning rate. *)
Definition args0 : string :=
  "init=16777216,16777216,16777216,16777216".

Definition frozen : ntuple :=
  mk_ntuple (agent.new args0) (replicate 4 weight_zero) (S754_zero false)
            (map IsoFeature.create_iso_feature feats) 28 [0; 1; 2; 3] [].

(** A weight file of four tables that hold the infinity everywhere. *)
Definition infinite_disk : gmap string file :=
  {[ "w.bin"%string := replicate 4 (constant (S754_infinity false)) ]}.

(** An agent that is to save its weights, and a world where no file can
    be opened for writing. *)
Definition saver : weight_agent :=
  mk_weight_agent (agent.new "save=out.bin") [] (S754_zero false).

Definition no_open_out (path : string) : option file := None.

(** A board with the ranks 1..6 in the cells 5, 6, 7, 9, 10 and 11. *)
Definition block : board :=
  [0; 0; 0; 0; 0; 1; 2; 3; 0; 4; 5; 6; 0; 0; 0; 0].

(** The agent with a trajectory of two entries: [block] with the reward
    4 first, [corner] with the reward 0 on top. *)
Definition earlier : list target := [(block, 4)].
Definition played : ntuple := set_history fresh ((corner, 0) :: earlier).

(** A disk with one weight file of two tables. *)
Definition two_disk : gmap string file :=
  {[ "w.bin"%string := [constant (number 1); constant (number 2)] ]}.

Definition two_tables : weight_agent :=
  mk_weight_agent (agent.new "init=16,16,16,16 load=w.bin")
                  [constant (number 1); constant (number 2)] (S754_zero false).

(** Tables that are not zero, the third apart, and a board with sixteen
    different ranks. *)
Definition mixed_net : list weight :=
  [constant (number 1); constant (number 2); weight_zero; constant (number 3)].

Definition ranks : board := cells.

(** The agent [played] on tables that hold 1 everywhere. *)
Definition taught : ntuple :=
  set_net played (replicate 4 (constant (number 1))).

(** A shuffle that turns the array round, on an engine without state. *)
Definition turn (opcode : list Z) (e : unit) : list Z * unit :=
  (rev opcode, e).

(** A file as the sequence of what was written to it, counts and tables,
    read from the front. *)
Definition tape : Type := list (Z + weight).
Definition tape_read_u32 (f : tape) : Z * tape :=
  match f with
  | inl n :: rest => (n, rest)
  | _ => (0, f)
  end.
Definition tape_read_weight (f : tape) (w : weight) : weight * tape :=
  match f with
  | inr w' :: rest => (w', rest)
  | _ => (w, f)
  end.
Definition tape_write_u32 (f : tape) (n : Z) : tape := f ++ [inl n].
Definition tape_write_weight (f : tape) (w : weight) : tape := f ++ [inr w].

(** An agent with two tables and a [save] option. *)
Definition keeper : weight_agent :=
  mk_weight_agent (agent.new "save=w.bin")
                  [constant (number 1); constant (number 2)] (S754_zero false).

End Sample.

(** * Properties *)

(** ** Floating-point numbers *)

Lemma iter_pos_nat {A : Type} (f : A -> A) p : forall x,
  SpecFloat.iter_pos f p x = Nat.iter (Pos.to_nat p) f x.
Proof.
  induction p as [p IH|p IH|]; intros x; cbn [SpecFloat.iter_pos].
  - rewrite !IH, Pos2Nat.inj_xI.
    replace (S (2 * Pos.to_nat p))
      with (Pos.to_nat p + (Pos.to_nat p + 1))%nat by lia.
    by rewrite !Nat.iter_add.
  - rewrite !IH, Pos2Nat.inj_xO.
    replace (2 * Pos.to_nat p)%nat
      with (Pos.to_nat p + Pos.to_nat p)%nat by lia.
    by rewrite Nat.iter_add.
  - reflexivity.
Qed.

(** A mantissa with [k] more zeros at its end has [k] more digits, and
    [k] shifts to the right give the mantissa back, exactly. *)
Lemma digits2_shift m (k : nat) :
  Zpos (digits2_pos (Nat.iter k xO m)) = Zpos (digits2_pos m) + Z.of_nat k.
Proof.
  induction k as [|k IH]; [simpl; lia|].
  cbn [Nat.iter nat_rect digits2_pos]. rewrite Pos2Z.inj_succ.
  change (nat_rect (fun _ => positive) m (fun _ => xO) k)
    with (Nat.iter k xO m).
  lia.
Qed.

Lemma shr_shift m (k : nat) :
  Nat.iter k shr_1 (Build_shr_record (Zpos (Nat.iter k xO m)) false false)
  = Build_shr_record (Zpos m) false false.
Proof.
  induction k as [|k IH]; [reflexivity|].
  rewrite Nat.iter_succ_r. cbn [Nat.iter nat_rect shr_1 orb]. exact IH.
Qed.

(** Rounding leaves a number of the format as it is. *)
Lemma binary_round_aux_canonical prec emax s m e :
  canonical_mantissa prec emax m e = true -> e <= emax - prec ->
  binary_round_aux prec emax s (Zpos m) e loc_Exact = S754_finite s m e.
Proof.
  unfold canonical_mantissa. intros Hc He. apply Z.eqb_eq in Hc.
  unfold binary_round_aux, shr_fexp. cbn [Zdigits2 shr_record_of_loc].
  rewrite Hc, Z.sub_diag.
  cbn [shr shr_m loc_of_shr_record round_nearest_even Zdigits2
       shr_record_of_loc].
  rewrite Hc, Z.sub_diag. cbn [shr shr_m].
  apply Z.leb_le in He. by rewrite He.
Qed.

(** The [double] of a [float]: the same number, with the zeros the
    longer mantissa needs. *)
Lemma double_of_float_finite s m e :
  valid_binary 24 128 (S754_finite s m e) = true ->
  double_of_float (S754_finite s m e)
  = S754_finite s (Nat.iter (Z.to_nat (53 - Zpos (digits2_pos m))) xO m)
                (e - Z.of_nat (Z.to_nat (53 - Zpos (digits2_pos m)))).
Proof.
  cbn [valid_binary]. unfold bounded, canonical_mantissa, fexp, emin.
  intros H. apply andb_prop in H as [Hc He].
  apply Z.eqb_eq in Hc. apply Z.leb_le in He.
  set (k := Z.to_nat (53 - Z.pos (digits2_pos m))).
  assert (Hd : 0 < Zpos (digits2_pos m) <= 24) by lia.
  cbn [double_of_float]. unfold binary_round, shl_align, fexp, emin.
  replace (Z.max (Z.pos (digits2_pos m) + e - 53) (3 - 1024 - 53))
    with (Z.pos (digits2_pos m) + e - 53) by lia.
  destruct (Z.pos (digits2_pos m) + e - 53 - e) as [|p|p] eqn:Hp; try lia.
  rewrite Pos2Nat.inj_iter.
  change (nat_rect (fun _ => positive) m (fun _ => xO) (Pos.to_nat p))
    with (Nat.iter (Pos.to_nat p) xO m).
  assert (Hk : k = Pos.to_nat p) by lia. rewrite <- Hk.
  replace (Z.pos (digits2_pos m) + e - 53) with (e - Z.of_nat k) by lia.
  apply binary_round_aux_canonical; [|lia].
  unfold canonical_mantissa, fexp, emin. rewrite digits2_shift.
  apply Z.eqb_eq. lia.
Qed.

(** The conversion to [double] and back gives a [float] back. *)
Lemma float_of_double_of_float s m e :
  valid_binary 24 128 (S754_finite s m e) = true ->
  float_of_double (double_of_float (S754_finite s m e)) = S754_finite s m e.
Proof.
  intros Hv. rewrite (double_of_float_finite s m e Hv).
  revert Hv. cbn [valid_binary]. unfold bounded. intros H.
  apply andb_prop in H as [Hc He].
  unfold canonical_mantissa, fexp, emin in Hc.
  apply Z.eqb_eq in Hc. apply Z.leb_le in He.
  set (k := Z.to_nat (53 - Z.pos (digits2_pos m))).
  assert (Hd : 0 < Zpos (digits2_pos m) <= 24) by lia.
  cbn [float_of_double]. unfold binary_round, shl_align, fexp, emin.
  rewrite digits2_shift.
  replace (Z.max (Z.pos (digits2_pos m) + Z.of_nat k + (e - Z.of_nat k) - 24)
                 (3 - 128 - 24))
    with e by lia.
  destruct (e - (e - Z.of_nat k)) as [|p|p] eqn:Hp; try lia.
  unfold binary_round_aux, shr_fexp. cbn [Zdigits2 shr_record_of_loc].
  rewrite digits2_shift. unfold fexp, emin.
  replace (Z.max (Z.pos (digits2_pos m) + Z.of_nat k + (e - Z.of_nat k) - 24)
                 (3 - 128 - 24) - (e - Z.of_nat k))
    with (Zpos p) by lia.
  cbn [shr]. rewrite iter_pos_nat.
  replace (Pos.to_nat p) with k by lia. rewrite shr_shift.
  cbn [shr_m loc_of_shr_record round_nearest_even Zdigits2 shr_record_of_loc].
  replace (e - Z.of_nat k + Z.pos p) with e by lia.
  replace (Z.max (Z.pos (digits2_pos m) + e - 24) (3 - 128 - 24) - e)
    with 0 by lia.
  cbn [shr shr_m]. apply Z.leb_le in He. by rewrite He.
Qed.

(** *** Numbers that are the same but for the sign of a zero *)

Lemma same_number_refl x : same_number x x.
Proof. by left. Qed.

Lemma same_number_trans x y z :
  same_number x y -> same_number y z -> same_number x z.
Proof.
  intros [->|[Hx Hy]] [->|[Hy' Hz]]; first [by left|by right].
Qed.

Lemma same_number_float x y : is_float x -> same_number x y -> is_float y.
Proof.
  intros Hx [<-|[_ Hy]]; [exact Hx|]. by destruct y.
Qed.

Lemma double_of_float_same x y :
  same_number x y -> same_number (double_of_float x) (double_of_float y).
Proof.
  intros [->|[Hx Hy]]; [by left|].
  destruct x, y; try discriminate. by right.
Qed.

Lemma double_add_same x x' y y' :
  same_number x x' -> same_number y y' ->
  same_number (double_add x y) (double_add x' y').
Proof.
  intros [Hx|[Hx Hx']] [Hy|[Hy Hy']].
  - subst x' y'. by left.
  - subst x'.
    destruct x as [[]|[]| |], y as [[]|[]| |], y' as [[]|[]| |];
      try discriminate; first [by left|by right].
  - subst y'.
    destruct x as [[]|[]| |], x' as [[]|[]| |], y as [[]|[]| |];
      try discriminate; first [by left|by right].
  - destruct x as [[]|[]| |], x' as [[]|[]| |], y as [[]|[]| |],
             y' as [[]|[]| |];
      try discriminate; first [by left|by right].
Qed.

Lemma double_sub_same x x' y y' :
  same_number x x' -> same_number y y' ->
  same_number (double_sub x y) (double_sub x' y').
Proof.
  intros [Hx|[Hx Hx']] [Hy|[Hy Hy']].
  - subst x' y'. by left.
  - subst x'.
    destruct x as [[]|[]| |], y as [[]|[]| |], y' as [[]|[]| |];
      try discriminate; first [by left|by right].
  - subst y'.
    destruct x as [[]|[]| |], x' as [[]|[]| |], y as [[]|[]| |];
      try discriminate; first [by left|by right].
  - destruct x as [[]|[]| |], x' as [[]|[]| |], y as [[]|[]| |],
             y' as [[]|[]| |];
      try discriminate; first [by left|by right].
Qed.

Lemma finite_same x y : same_number x y -> finite x = finite y.
Proof.
  intros [->|[Hx Hy]]; [reflexivity|]. by destruct x, y.
Qed.

(** Adding a zero leaves a [float] the same number. *)
Lemma step_zero tg w :
  is_float w -> is_zero tg = true -> same_number w (step tg w).
Proof.
  intros Hw Htg. destruct tg as [z| | |]; try discriminate.
  destruct w as [sw|sw| |s m e].
  - right. split; [reflexivity|]. by destruct sw, z.
  - by left.
  - by left.
  - left. unfold step.
    assert (Hadd : forall d, double_add d (S754_zero z) = match d with
                     | S754_zero sd =>
                         double_add (S754_zero sd) (S754_zero z)
                     | _ => d end) by (by intros [| | |]).
    rewrite (double_of_float_finite s m e Hw). rewrite Hadd.
    rewrite <- (double_of_float_finite s m e Hw).
    symmetry. by apply float_of_double_of_float.
Qed.

Lemma iter_step_zero tg (k : nat) w :
  is_float w -> is_zero tg = true -> same_number w (Nat.iter k (step tg) w).
Proof.
  intros Hw Htg. induction k as [|k IH]; [by left|].
  cbn [Nat.iter nat_rect].
  change (nat_rect (fun _ => float) w (fun _ => step tg) k)
    with (Nat.iter k (step tg) w).
  eapply same_number_trans; [exact IH|].
  apply step_zero; [|exact Htg]. by apply (same_number_float w).
Qed.

(** *** The order of [<] *)

Lemma double_ltb_rank x y :
  double_ltb x y = true
  <-> x <> S754_nan /\ y <> S754_nan /\ below (rank x) (rank y).
Proof.
  unfold double_ltb, SFltb, below.
  destruct x as [[]|[]| |[] mx ex], y as [[]|[]| |[] my ey];
    cbn -[Pos.compare_cont Z.compare];
    try (split; [discriminate|intros (?&?&?); try done; lia]);
    try (split; [intros _; repeat split; try done; lia|reflexivity]).
  - destruct (Z.compare_spec ex ey);
      [change (Pos.compare_cont Eq mx my) with (Pos.compare mx my);
       destruct (Pos.compare_spec mx my); cbn|..];
      (split; [try discriminate; intros _; repeat split; try done; lia
              |intros (?&?&?); try done; lia]).
  - destruct (Z.compare_spec ex ey);
      [change (Pos.compare_cont Eq mx my) with (Pos.compare mx my);
       destruct (Pos.compare_spec mx my); cbn|..];
      (split; [try discriminate; intros _; repeat split; try done; lia
              |intros (?&?&?); try done; lia]).
Qed.

Lemma double_ltb_trans x y z :
  double_ltb x y = true -> double_ltb y z = true -> double_ltb x z = true.
Proof.
  rewrite !double_ltb_rank. unfold below. intros (?&?&?) (?&?&?).
  repeat split; try done. lia.
Qed.

(** A number that is not above [x] is below every number above [x],
    unless it is NaN. *)
Lemma double_ltb_beaten x y z :
  double_ltb x y = false -> double_ltb x z = true ->
  double_ltb y z = true \/ y = S754_nan.
Proof.
  intros Hxy Hxz.
  assert (Hy : y = S754_nan \/ y <> S754_nan)
    by (destruct y; auto; right; discriminate).
  destruct Hy as [->|Hy]; [by right|left].
  apply double_ltb_rank in Hxz as (Hx & Hz & Hlt).
  apply double_ltb_rank. repeat split; try done.
  assert (Hn : ~ below (rank x) (rank y)).
  { intros H. assert (double_ltb x y = true) by (by apply double_ltb_rank).
    congruence. }
  unfold below in *.
  destruct (rank x) as [[a b] c], (rank y) as [[a' b'] c'],
           (rank z) as [[a'' b''] c''].
  cbn in *. lia.
Qed.

(** ** Bits *)

Ltac bitwise :=
  apply Z.bits_inj'; intros ? ?;
  rewrite ?Z.lor_spec, ?Z.bits_0;
  repeat match goal with
         | |- context [Z.testbit ?x ?n] => destruct (Z.testbit x n)
         end;
  reflexivity.

Lemma lor_below n a b :
  0 <= n -> 0 <= a < 2 ^ n -> 0 <= b < 2 ^ n -> 0 <= Z.lor a b < 2 ^ n.
Proof.
  intros Hn Ha Hb.
  assert (Hnn : 0 <= Z.lor a b) by (apply Z.lor_nonneg; lia).
  split; [exact Hnn|].
  destruct (Z.eq_dec a 0) as [->|Ha0]; [rewrite Z.lor_0_l; lia|].
  destruct (Z.eq_dec b 0) as [->|Hb0]; [rewrite Z.lor_0_r; lia|].
  assert (Hpos : 0 < Z.lor a b).
  { destruct (Z.eq_dec (Z.lor a b) 0) as [H0|]; [|lia].
    apply Z.lor_eq_0_iff in H0. lia. }
  apply Z.log2_lt_pow2; [exact Hpos|].
  rewrite Z.log2_lor by lia.
  apply Z.max_lub_lt; apply Z.log2_lt_pow2; lia.
Qed.

Lemma lor_below_16 a b :
  0 <= a < 65536 -> 0 <= b < 65536 -> 0 <= Z.lor a b < 65536.
Proof. apply (lor_below 16). lia. Qed.

Lemma In_cells k : cell_pos k -> In k cells.
Proof.
  intros Hk. unfold cells.
  replace k with (Z.of_nat (Z.to_nat k)) by (unfold cell_pos in Hk; lia).
  apply in_map, in_seq. unfold cell_pos in Hk. lia.
Qed.

Lemma cells_checked (P : Z -> bool) k :
  forallb P cells = true -> cell_pos k -> P k = true.
Proof.
  intros Hall Hk. rewrite forallb_forall in Hall. apply Hall, In_cells, Hk.
Qed.

Lemma bit_cell k : cell_pos k -> 0 <= bit k < 65536.
Proof.
  intros Hk.
  apply (cells_checked (fun k => (0 <=? bit k) && (bit k <? 65536))) in Hk;
    [|reflexivity].
  apply andb_prop in Hk. lia.
Qed.

Lemma mask_below_16 l : Forall cell_pos l -> 0 <= mask l < 65536.
Proof.
  induction 1 as [|k l Hk _ IH]; simpl; [lia|].
  apply lor_below_16; [apply bit_cell, Hk | exact IH].
Qed.

Lemma image_bits_0 bits : image_bits 0 bits = 0.
Proof. induction bits as [|s bits IH]; simpl; [reflexivity|]. exact IH. Qed.

Lemma image_bits_lor bits : forall a b,
  image_bits (Z.lor a b) bits = Z.lor (image_bits a bits) (image_bits b bits).
Proof.
  induction bits as [|s bits IH]; intros a b; simpl; [reflexivity|].
  rewrite !Z.div2_spec, Z.shiftr_lor, IH, <- !Z.bit0_odd, Z.lor_spec.
  destruct (Z.testbit a 0), (Z.testbit b 0); simpl; bitwise.
Qed.

Lemma perm_mask_bit t k :
  table t -> cell_pos k -> perm_mask t (bit k) = bit (IsoFeature.matching t k).
Proof.
  intros Ht Hk. apply Z.eqb_eq.
  destruct Ht as [-> | ->];
    refine (cells_checked (fun k => perm_mask _ (bit k) =? bit _) k _ Hk);
    vm_compute; reflexivity.
Qed.

(** ** Feature *)

Lemma matching_cell t k : table t -> cell_pos (IsoFeature.matching t k).
Proof.
  intros Ht. unfold IsoFeature.matching, cell_pos.
  destruct (nth_in_or_default (Z.to_nat k) t 0) as [H | ->]; [|lia].
  revert H. generalize (nth (Z.to_nat k) t 0). intros x H.
  destruct Ht as [-> | ->]; simpl in H; intuition lia.
Qed.

Lemma reals_cells l : Forall cell_pos l -> reals l = l.
Proof.
  induction 1 as [|k l Hk _ IH]; simpl; [reflexivity|].
  unfold real. destruct (Z.eqb_spec k (-1)) as [->|_]; simpl.
  - unfold cell_pos in Hk. lia.
  - fold (reals l). by rewrite IH.
Qed.

Lemma with_hint_cells l : Forall cell_pos l -> with_hint l = false.
Proof.
  induction 1 as [|k l Hk _ IH]; [reflexivity|].
  change (with_hint (k :: l)) with ((-1 =? k) || with_hint l).
  rewrite IH, orb_false_r.
  apply Z.eqb_neq. unfold cell_pos in Hk. lia.
Qed.

Lemma reals_position feat :
  Forall position feat -> Forall cell_pos (reals feat).
Proof.
  induction 1 as [|k l Hk _ IH]; simpl; [constructor|].
  unfold real. destruct (Z.eqb_spec k (-1)) as [->|Hne]; simpl; [exact IH|].
  constructor; [|exact IH]. unfold position in Hk. unfold cell_pos. lia.
Qed.

Lemma hash_fold feat : forall i flag,
  fold_left Feature.hash_step feat (i, flag)
  = (Z.lor i (mask (reals feat)), flag || with_hint feat).
Proof.
  induction feat as [|k feat IH]; intros i flag.
  - simpl. by rewrite Z.lor_0_r, orb_false_r.
  - change (with_hint (k :: feat)) with ((-1 =? k) || with_hint feat).
    change (fold_left Feature.hash_step (k :: feat) (i, flag))
      with (fold_left Feature.hash_step feat (Feature.hash_step (i, flag) k)).
    change (reals (k :: feat))
      with (if real k then k :: reals feat else reals feat).
    unfold Feature.hash_step, real. rewrite (Z.eqb_sym (-1) k).
    destruct (k =? -1); rewrite IH; simpl.
    + by rewrite orb_true_r.
    + fold (bit k). by rewrite Z.lor_assoc.
Qed.

Lemma hash_spec feat :
  Feature.hash feat
  = if with_hint feat then - mask (reals feat) else mask (reals feat).
Proof. unfold Feature.hash. rewrite hash_fold. reflexivity. Qed.

Lemma hash_cells l : Forall cell_pos l -> Feature.hash l = mask l.
Proof.
  intros Hl. by rewrite hash_spec, with_hint_cells, reals_cells.
Qed.

Lemma hash_hint l :
  Forall cell_pos l -> Feature.hash (l ++ [-1]) = - mask l.
Proof.
  intros Hl. rewrite hash_spec.
  assert (Hh : with_hint (l ++ [-1]) = true).
  { unfold with_hint. rewrite existsb_app. simpl. apply orb_true_r. }
  rewrite Hh. unfold reals. rewrite List.filter_app. simpl.
  rewrite app_nil_r. fold (reals l). by rewrite reals_cells.
Qed.

(** ** IsoFeature *)

Lemma remap_fold t feat : forall vec,
  fold_left
    (fun vec i => if i =? -1 then vec else vec ++ [IsoFeature.matching t i])
    feat vec
  = vec ++ map (IsoFeature.matching t) (reals feat).
Proof.
  induction feat as [|k feat IH]; intros vec; simpl.
  - by rewrite app_nil_r.
  - rewrite IH. unfold real. destruct (k =? -1); simpl; [reflexivity|].
    by rewrite <- app_assoc.
Qed.

(** [left_rotate] and [reflection] drop every sentinel and map the cells
    through the table, in order. *)
Lemma remap_spec t feat :
  IsoFeature.remap t feat = map (IsoFeature.matching t) (reals feat).
Proof. unfold IsoFeature.remap. by rewrite remap_fold. Qed.

Lemma remap_cells t feat : table t -> Forall cell_pos (IsoFeature.remap t feat).
Proof.
  intros Ht. rewrite remap_spec. apply List.Forall_forall.
  intros x Hx. apply in_map_iff in Hx as (k & <- & _). by apply matching_cell.
Qed.

Lemma mask_map t l :
  table t -> Forall cell_pos l ->
  mask (map (IsoFeature.matching t) l) = perm_mask t (mask l).
Proof.
  intros Ht. induction 1 as [|k l Hk _ IH]; simpl.
  - unfold perm_mask. by rewrite image_bits_0.
  - unfold perm_mask in *. by rewrite image_bits_lor, <- IH, <- perm_mask_bit.
Qed.

Lemma hash_remap t feat :
  table t -> Forall position feat ->
  Feature.hash (IsoFeature.remap t feat) = perm_mask t (mask (reals feat)).
Proof.
  intros Ht Hf. rewrite hash_cells by (by apply remap_cells).
  rewrite remap_spec. apply mask_map; [exact Ht|]. by apply reals_position.
Qed.

Lemma hash_remap_cells t l :
  table t -> Forall cell_pos l ->
  Feature.hash (IsoFeature.remap t l) = perm_mask t (Feature.hash l).
Proof.
  intros Ht Hl. rewrite (hash_cells l Hl), hash_remap; [|exact Ht|].
  - by rewrite reals_cells.
  - eapply Forall_impl; [exact Hl|]. unfold cell_pos, position. intros; lia.
Qed.

Lemma table_rotation : table IsoFeature._right_rotation_matching.
Proof. by left. Qed.

Lemma table_reflection : table IsoFeature._reflection_matching.
Proof. by right. Qed.

Create HintDb iso.
#[local] Hint Resolve table_rotation table_reflection remap_cells : iso.

Lemma create_iso_feature_unfold feat :
  IsoFeature.create_iso_feature feat
  = map (fun f : IsoFeature.entry =>
           if with_hint feat then snd f ++ [-1] else snd f)
        (IsoFeature.unique (IsoFeature.sort (map make_entry (variants feat)))).
Proof. reflexivity. Qed.

Lemma paths_tables : Forall (fun p => p <> [] /\ Forall table p) paths.
Proof.
  unfold paths.
  repeat match goal with
         | |- Forall _ _ => constructor
         | |- _ /\ _ => split
         | |- _ <> _ => discriminate
         | |- table _ => auto with iso
         end.
Qed.

Lemma apply_path_cell p : forall k,
  p <> [] -> Forall table p -> cell_pos (apply_path p k).
Proof.
  induction p as [|t p IH]; intros k Hne Hp; [done|].
  inversion Hp as [|? ? Ht Hp']; subst.
  destruct p as [|t' p'].
  - simpl. by apply matching_cell.
  - change (apply_path (t :: t' :: p') k)
      with (apply_path (t' :: p') (IsoFeature.matching t k)).
    by apply IH.
Qed.

(** A feature pushed through a sequence of tables: its sentinels are
    dropped and its cells are mapped, in order. *)
Lemma through_spec p : forall feat,
  p <> [] -> Forall table p ->
  through p feat = map (apply_path p) (reals feat).
Proof.
  induction p as [|t p IH]; intros feat Hne Hp; [done|].
  inversion Hp as [|? ? Ht Hp']; subst.
  change (through (t :: p) feat) with (through p (IsoFeature.remap t feat)).
  destruct p as [|t' p'].
  - simpl. apply remap_spec.
  - rewrite IH by done.
    rewrite reals_cells by (by apply remap_cells).
    rewrite remap_spec, map_map. reflexivity.
Qed.

Lemma through_cells p feat :
  p <> [] -> Forall table p -> Forall cell_pos (through p feat).
Proof.
  intros Hne Hp. rewrite through_spec by done.
  apply List.Forall_forall. intros x Hx.
  apply in_map_iff in Hx as (k & <- & _). by apply apply_path_cell.
Qed.

(** *** Sorting and [std::unique] keep what they are given *)

Lemma insert_sorted_Forall (P : IsoFeature.entry -> Prop) x l :
  P x -> Forall P l -> Forall P (IsoFeature.insert_sorted x l).
Proof.
  intros Hx. induction 1 as [|y l Hy Hl IH]; simpl.
  - by constructor.
  - destruct (IsoFeature.before x y); repeat constructor; auto.
Qed.

Lemma sort_Forall (P : IsoFeature.entry -> Prop) l :
  Forall P l -> Forall P (IsoFeature.sort l).
Proof.
  unfold IsoFeature.sort.
  assert (Hgen : forall acc, Forall P acc -> Forall P l ->
            Forall P (fold_left (fun acc x => IsoFeature.insert_sorted x acc)
                                l acc)).
  { induction l as [|x l IH]; intros acc Hacc Hl; simpl; [done|].
    inversion Hl; subst. apply IH; [|done]. by apply insert_sorted_Forall. }
  apply Hgen. constructor.
Qed.

Lemma unique_from_Forall (P : IsoFeature.entry -> Prop) l : forall kept,
  Forall P l -> Forall P (IsoFeature.unique_from kept l).
Proof.
  induction l as [|y l IH]; intros kept Hl; simpl; [constructor|].
  inversion Hl; subst.
  destruct (IsoFeature.entry_eqb kept y); [|constructor]; auto.
Qed.

Lemma unique_Forall (P : IsoFeature.entry -> Prop) l :
  Forall P l -> Forall P (IsoFeature.unique l).
Proof.
  destruct l as [|x l]; simpl; [done|].
  intros Hl. inversion Hl; subst. constructor; [done|].
  by apply unique_from_Forall.
Qed.

Lemma unique_sort_In (e : IsoFeature.entry) l :
  In e (IsoFeature.unique (IsoFeature.sort l)) -> In e l.
Proof.
  intros He.
  assert (H : Forall (fun x => In x l) (IsoFeature.unique (IsoFeature.sort l))).
  { apply unique_Forall, sort_Forall. by apply List.Forall_forall. }
  rewrite List.Forall_forall in H. by apply H.
Qed.

(** Every member of the orbit comes from one of the nine sequences of
    tables: the cells of the base feature mapped in order, and one sentinel
    at the end when the base feature has one. *)
Lemma orbit_member feat v :
  In v (IsoFeature.create_iso_feature feat) ->
  exists p, In p paths /\
    v = map (apply_path p) (reals feat) ++ hint_slot feat.
Proof.
  rewrite create_iso_feature_unfold. intros Hv.
  apply in_map_iff in Hv as (e & <- & He).
  apply unique_sort_In in He.
  apply in_map_iff in He as (u & <- & Hu).
  unfold variants in Hu. apply in_map_iff in Hu as (p & <- & Hp).
  exists p. split; [exact Hp|].
  pose proof paths_tables as Hall. rewrite List.Forall_forall in Hall.
  destruct (Hall p Hp) as [Hne Htab].
  simpl. rewrite through_spec by done.
  unfold hint_slot. destruct (with_hint feat); [reflexivity|].
  by rewrite app_nil_r.
Qed.

(** *** The hashes of the orbit *)

Lemma insert_sorted_fst x l :
  map fst (IsoFeature.insert_sorted x l) = insert_hash (fst x) (map fst l).
Proof.
  induction l as [|y l IH]; simpl; [reflexivity|].
  unfold IsoFeature.before. destruct (fst y <? fst x); simpl; [reflexivity|].
  by rewrite IH.
Qed.

Lemma sort_fst l :
  map fst (IsoFeature.sort l) = sort_hashes (map fst l).
Proof.
  unfold IsoFeature.sort, sort_hashes.
  change (@nil Z) with (map fst (@nil IsoFeature.entry)).
  generalize (@nil IsoFeature.entry).
  induction l as [|x l IH]; intros acc; simpl; [reflexivity|].
  by rewrite IH, insert_sorted_fst.
Qed.

Lemma entry_eqb_consistent a b :
  consistent a -> consistent b -> IsoFeature.entry_eqb a b = (fst a =? fst b).
Proof.
  unfold consistent, IsoFeature.entry_eqb, Feature.eqb. intros <- <-.
  apply andb_diag.
Qed.

Lemma unique_from_fst l : forall kept,
  consistent kept -> Forall consistent l ->
  map fst (IsoFeature.unique_from kept l)
  = unique_hashes_from (fst kept) (map fst l).
Proof.
  induction l as [|y l IH]; intros kept Hk Hl; simpl; [reflexivity|].
  inversion Hl; subst. rewrite entry_eqb_consistent by done.
  destruct (fst kept =? fst y); simpl; by rewrite IH.
Qed.

Lemma unique_fst l :
  Forall consistent l ->
  map fst (IsoFeature.unique l) = unique_hashes (map fst l).
Proof.
  destruct l as [|x l]; simpl; [reflexivity|].
  intros Hl. inversion Hl; subst. by rewrite unique_from_fst.
Qed.

Lemma make_entry_consistent vs : Forall consistent (map make_entry vs).
Proof.
  apply List.Forall_forall. intros e He.
  apply in_map_iff in He as (v & <- & _). reflexivity.
Qed.

Lemma variant_hashes feat :
  Forall position feat ->
  map Feature.hash (variants feat) = orbit_hashes (mask (reals feat)).
Proof.
  intros Hf. unfold variants, paths, through. cbn [map fold_left].
  repeat match goal with
         | |- context [Feature.hash
                         (IsoFeature.remap ?t (IsoFeature.remap ?t' ?x))] =>
             rewrite (hash_remap_cells t (IsoFeature.remap t' x))
               by auto with iso
         end.
  rewrite (hash_remap _ feat) by auto with iso.
  reflexivity.
Qed.

(** The size of the orbit is the number of different hashes among the
    nine entries. *)
Lemma orbit_length feat :
  Forall position feat ->
  length (IsoFeature.create_iso_feature feat) = orbit_size (mask (reals feat)).
Proof.
  intros Hf. rewrite create_iso_feature_unfold, length_map.
  rewrite <- (List.length_map (@fst Z (list Z))).
  rewrite unique_fst by (apply sort_Forall, make_entry_consistent).
  rewrite sort_fst, map_map.
  change (fun x => fst (make_entry x)) with Feature.hash.
  by rewrite variant_hashes.
Qed.

Lemma all_from_spec n : forall m0 m,
  all_from n m0 = true -> m0 <= m < m0 + Z.of_nat n ->
  divides_8 (orbit_size m) = true.
Proof.
  induction n as [|n IH]; intros m0 m Hall Hm; [lia|].
  simpl in Hall. apply andb_prop in Hall as [H0 Hrest].
  destruct (Z.eq_dec m m0) as [->|Hne]; [exact H0|].
  apply (IH (m0 + 1)); [exact Hrest|lia].
Qed.

(** Every set of cells, one after the other. *)
Lemma all_sets_checked : all_from (Z.to_nat 65536) 0 = true.
Proof. vm_compute. reflexivity. Qed.

Lemma orbit_size_divides m :
  0 <= m < 65536 -> Nat.divide (orbit_size m) 8.
Proof.
  intros Hm.
  pose proof (all_from_spec _ 0 m all_sets_checked) as H.
  rewrite Z2Nat.id in H by lia. specialize (H ltac:(lia)).
  unfold divides_8 in H.
  repeat (apply orb_prop in H as [H|H]);
    apply Nat.eqb_eq in H; rewrite H.
  - by exists 8%nat.
  - by exists 4%nat.
  - by exists 2%nat.
  - by exists 1%nat.
Qed.

(** *** Four rotations *)

Lemma left_rotate_cells u :
  Forall cell_pos u ->
  IsoFeature.left_rotate u
  = map (IsoFeature.matching IsoFeature._right_rotation_matching) u.
Proof.
  intros Hu. unfold IsoFeature.left_rotate. by rewrite remap_spec, reals_cells.
Qed.

Lemma left_rotate_hint u h :
  Forall cell_pos u -> (h = [] \/ h = [-1]) ->
  IsoFeature.left_rotate (u ++ h) = IsoFeature.left_rotate u.
Proof.
  intros Hu Hh. unfold IsoFeature.left_rotate. rewrite !remap_spec.
  f_equal. unfold reals. rewrite List.filter_app.
  destruct Hh as [-> | ->]; simpl; by rewrite app_nil_r.
Qed.

Lemma rotate4_cell k :
  cell_pos k ->
  apply_path (replicate 4 IsoFeature._right_rotation_matching) k = k.
Proof.
  intros Hk. apply Z.eqb_eq.
  by refine (cells_checked (fun k => apply_path _ k =? k) k _ Hk).
Qed.

Lemma rotate4_cells u :
  Forall cell_pos u -> Nat.iter 4 IsoFeature.left_rotate u = u.
Proof.
  intros Hu.
  change (Nat.iter 4 IsoFeature.left_rotate u)
    with (through (replicate 4 IsoFeature._right_rotation_matching) u).
  rewrite through_spec, reals_cells
    by first [done | repeat constructor; auto with iso].
  rewrite <- (map_id u) at 2. apply map_ext_in.
  intros k Hk. apply rotate4_cell.
  rewrite List.Forall_forall in Hu. by apply Hu.
Qed.

Lemma orbit_member_cells feat v :
  In v (IsoFeature.create_iso_feature feat) ->
  exists u, Forall cell_pos u /\ v = u ++ hint_slot feat.
Proof.
  intros Hv. apply orbit_member in Hv as (p & Hp & ->).
  pose proof paths_tables as Hall. rewrite List.Forall_forall in Hall.
  destruct (Hall p Hp) as [Hne Htab].
  exists (map (apply_path p) (reals feat)). split; [|reflexivity].
  rewrite <- through_spec by done. by apply through_cells.
Qed.

Lemma hint_slot_cases feat : hint_slot feat = [] \/ hint_slot feat = [-1].
Proof. unfold hint_slot. destruct (with_hint feat); auto. Qed.

(** C7 (amended).  For a base feature whose positions are cells or the
    sentinel, every variant of [create_iso_feature] is the cells of the
    base feature, in their order, each pushed through a non-empty sequence
    of the two matching tables, followed by one sentinel when the base
    feature has a sentinel anywhere; so a base feature made of cells and a
    last sentinel keeps the sentinel in its slot. *)
Theorem variant_remaps_cells_and_appends_sentinel feat v :
  Forall position feat ->
  In v (IsoFeature.create_iso_feature feat) ->
  (exists p, In p paths /\ p <> [] /\ Forall table p /\
     v = map (apply_path p) (reals feat) ++ hint_slot feat) /\
  (forall l, feat = l ++ [-1] -> Forall cell_pos l ->
     exists p, In p paths /\ v = map (apply_path p) l ++ [-1]).
Proof.
  intros _ Hv. apply orbit_member in Hv as (p & Hp & ->).
  pose proof paths_tables as Hall. rewrite List.Forall_forall in Hall.
  destruct (Hall p Hp) as [Hne Htab].
  split.
  - exists p. auto.
  - intros l -> Hl. exists p. split; [exact Hp|].
    unfold hint_slot, with_hint, reals.
    rewrite existsb_app, List.filter_app. simpl.
    rewrite orb_true_r, app_nil_r. fold (reals l).
    by rewrite reals_cells.
Qed.

Lemma variant_remaps_cells_and_appends_sentinel_witness :
  (exists p, In p paths /\ p <> [] /\ Forall table p /\
     [10; 14; 5; 9; 13; -1]
     = map (apply_path p) (reals [6; 7; 9; 10; 11; -1])
       ++ hint_slot [6; 7; 9; 10; 11; -1]) /\
  (forall l, [6; 7; 9; 10; 11; -1] = l ++ [-1] -> Forall cell_pos l ->
     exists p, In p paths /\
               [10; 14; 5; 9; 13; -1] = map (apply_path p) l ++ [-1]).
Proof.
  apply (variant_remaps_cells_and_appends_sentinel
           [6; 7; 9; 10; 11; -1] [10; 14; 5; 9; 13; -1]).
  - repeat constructor; unfold position; lia.
  - vm_compute. right. left. reflexivity.
Defined.

(** C7, as stated, fails: the base feature [-1; 0; 1] has its sentinel in
    the first slot, and each of its eight variants has a cell there and
    the sentinel in the last slot. *)
Lemma sentinel_moves_to_the_end :
  IsoFeature.create_iso_feature [-1; 0; 1]
  = [ [15; 14; -1]; [15; 11; -1]; [12; 13; -1]; [12; 8; -1];
      [3; 7; -1]; [0; 4; -1]; [3; 2; -1]; [0; 1; -1] ] /\
  nth 0 [-1; 0; 1] 0 = -1 /\
  Forall (fun v => nth 0 v 0 <> -1 /\ nth 2 v 0 = -1)
         (IsoFeature.create_iso_feature [-1; 0; 1]).
Proof.
  split; [vm_compute; reflexivity|]. split; [reflexivity|].
  vm_compute. repeat constructor; discriminate.
Qed.

(** C5 (amended).  For a base feature whose positions are cells or the
    sentinel, the size of the orbit divides 8, and four applications of
    [left_rotate] to a member of the orbit give the member without its
    sentinel: the hash of the result is the absolute value of the hash of
    the member, and it is the hash of the member when the base feature has
    no sentinel. *)
Theorem orbit_size_divides_8_and_four_rotations feat :
  Forall position feat ->
  Nat.divide (length (IsoFeature.create_iso_feature feat)) 8 /\
  forall v, In v (IsoFeature.create_iso_feature feat) ->
    Nat.iter 4 IsoFeature.left_rotate v = reals v /\
    Feature.hash (Nat.iter 4 IsoFeature.left_rotate v)
    = Z.abs (Feature.hash v) /\
    (with_hint feat = false ->
     Feature.hash (Nat.iter 4 IsoFeature.left_rotate v) = Feature.hash v).
Proof.
  intros Hf. split.
  - rewrite orbit_length by done.
    apply orbit_size_divides, mask_below_16, reals_position, Hf.
  - intros v Hv. apply orbit_member_cells in Hv as (u & Hu & ->).
    assert (Hrot : Nat.iter 4 IsoFeature.left_rotate (u ++ hint_slot feat) = u).
    { rewrite <- (rotate4_cells u Hu) at 2.
      change (Nat.iter 4 IsoFeature.left_rotate (u ++ hint_slot feat))
        with (Nat.iter 3 IsoFeature.left_rotate
                (IsoFeature.left_rotate (u ++ hint_slot feat))).
      by rewrite left_rotate_hint by (done || apply hint_slot_cases). }
    assert (Hreals : reals (u ++ hint_slot feat) = u).
    { unfold reals. rewrite List.filter_app. fold (reals u).
      rewrite reals_cells by done.
      destruct (hint_slot_cases feat) as [-> | ->]; simpl; apply app_nil_r. }
    rewrite Hrot, Hreals, (hash_cells u Hu).
    pose proof (mask_below_16 u Hu) as Hm.
    split; [reflexivity|]. unfold hint_slot.
    destruct (with_hint feat).
    + rewrite hash_hint by done. split; [lia|discriminate].
    + rewrite app_nil_r, hash_cells by done. split; [lia|reflexivity].
Qed.

Lemma orbit_size_divides_8_and_four_rotations_witness :
  Nat.divide (length (IsoFeature.create_iso_feature [5; 6; 7; 9; 10; 11])) 8 /\
  forall v, In v (IsoFeature.create_iso_feature [5; 6; 7; 9; 10; 11]) ->
    Nat.iter 4 IsoFeature.left_rotate v = reals v /\
    Feature.hash (Nat.iter 4 IsoFeature.left_rotate v)
    = Z.abs (Feature.hash v) /\
    (with_hint [5; 6; 7; 9; 10; 11] = false ->
     Feature.hash (Nat.iter 4 IsoFeature.left_rotate v) = Feature.hash v).
Proof.
  apply (orbit_size_divides_8_and_four_rotations [5; 6; 7; 9; 10; 11]).
  repeat constructor; unfold position; lia.
Defined.

(** C5, as stated, fails on a base feature with a sentinel: [6; 7; 9; 10;
    11; -1] is in its own orbit, four rotations of it give [6; 7; 9; 10;
    11], and the two hashes are 3776 and -3776. *)
Lemma four_rotations_change_the_hash :
  In [6; 7; 9; 10; 11; -1]
     (IsoFeature.create_iso_feature [6; 7; 9; 10; 11; -1]) /\
  Nat.iter 4 IsoFeature.left_rotate [6; 7; 9; 10; 11; -1] = [6; 7; 9; 10; 11] /\
  Feature.hash (Nat.iter 4 IsoFeature.left_rotate [6; 7; 9; 10; 11; -1])
  = 3776 /\
  Feature.hash [6; 7; 9; 10; 11; -1] = -3776.
Proof.
  split; [vm_compute; auto 6|]. repeat split; vm_compute; reflexivity.
Qed.

(** ** The index of a feature *)

Lemma wrap64_small x : - 2 ^ 63 <= x < 2 ^ 63 -> wrap64 x = x.
Proof.
  intros Hx. unfold wrap64, wrap.
  change (64 - 1) with 63. rewrite Z.mod_small; lia.
Qed.

Lemma count_fold (P : Z -> bool) l : forall e0,
  let e := fold_left (fun empty i => if P i then empty + 1 else empty) l e0 in
  e0 <= e <= e0 + Z.of_nat (length l) /\
  ((exists i, In i l /\ P i = false) -> e < e0 + Z.of_nat (length l)).
Proof.
  induction l as [|i l IH]; intros e0; simpl.
  - split; [lia|]. intros (i & [] & _).
  - destruct (IH (if P i then e0 + 1 else e0)) as [Hrange Hstrict].
    destruct (P i) eqn:HP.
    + split; [lia|]. intros (j & [<- | Hj] & Hfalse); [congruence|].
      assert (Hex : exists i0, In i0 l /\ P i0 = false) by eauto.
      specialize (Hstrict Hex). lia.
    + split; lia.
Qed.

Lemma index_fold b empty feat : forall idx n,
  (forall i, cell_pos i -> 0 <= board_at b i < 16) ->
  0 <= empty < 16 ->
  Forall position feat ->
  0 <= n -> n + Z.of_nat (length feat) <= 15 ->
  0 <= idx < 16 ^ n ->
  0 <= fold_left (Feature.index_step b empty) feat idx
    < 16 ^ (n + Z.of_nat (length feat)).
Proof.
  induction feat as [|k feat IH]; intros idx n Hb He Hf Hn Hlen Hidx.
  - simpl. by rewrite Z.add_0_r.
  - inversion Hf as [|? ? Hk Hf']; subst.
    change (fold_left (Feature.index_step b empty) (k :: feat) idx)
      with (fold_left (Feature.index_step b empty) feat
              (Feature.index_step b empty idx k)).
    replace (n + Z.of_nat (length (k :: feat)))
      with ((n + 1) + Z.of_nat (length feat))
      by (simpl length; lia).
    simpl length in Hlen.
    apply IH; try done; try lia.
    assert (Hpow : 16 ^ (n + 1) = 2 ^ (4 * (n + 1))).
    { rewrite Z.pow_mul_r by lia. reflexivity. }
    assert (Hle : 2 ^ (4 * (n + 1)) <= 2 ^ 60)
      by (apply Z.pow_le_mono_r; lia).
    assert (Hshift : 0 <= Z.shiftl idx 4 < 2 ^ (4 * (n + 1))).
    { rewrite Z.shiftl_mul_pow2 by lia. rewrite <- Hpow, Z.pow_add_r by lia.
      change (2 ^ 4) with 16. change (16 ^ 1) with 16. nia. }
    assert (Hnib : forall x, 0 <= x < 16 -> 0 <= x < 2 ^ (4 * (n + 1))).
    { intros x Hx. split; [lia|].
      apply Z.lt_le_trans with (2 ^ 4); [change (2 ^ 4) with 16; lia|].
      apply Z.pow_le_mono_r; lia. }
    unfold Feature.index_step.
    rewrite wrap64_small by (change (2 ^ 63) with (8 * 2 ^ 60); lia).
    rewrite Hpow.
    destruct (Z.eqb_spec k (-1)) as [->|Hne].
    + apply lor_below; [lia|exact Hshift|by apply Hnib].
    + apply lor_below; [lia|exact Hshift|].
      apply Hnib, Hb. unfold position in Hk. unfold cell_pos. lia.
Qed.

(** C6 (amended).  On a board whose ranks are below 16 and that holds at
    least one tile, the count of empty cells lies in 0..15, and the index
    of a feature of at most 15 positions, cells or sentinels, is below 16
    to the number of its positions. *)
Theorem index_in_range b feat :
  (forall i, cell_pos i -> 0 <= board_at b i < 16) ->
  (exists i, cell_pos i /\ board_at b i <> 0) ->
  Forall position feat ->
  (length feat <= 15)%nat ->
  0 <= Feature.count_empty b <= 15 /\
  0 <= Feature.index feat b < 16 ^ Z.of_nat (length feat).
Proof.
  intros Hb (i & Hi & Hne) Hf Hlen.
  assert (Hcount : 0 <= Feature.count_empty b <= 15).
  { unfold Feature.count_empty.
    pose proof (count_fold (fun i => board_at b i =? 0) cells 0) as Hfold.
    cbv zeta in Hfold. destruct Hfold as [Hr Hs].
    change (Z.of_nat (length cells)) with 16 in *.
    split; [lia|].
    assert (Hex : exists i, In i cells /\ (board_at b i =? 0) = false).
    { exists i. split; [by apply In_cells|by apply Z.eqb_neq]. }
    specialize (Hs Hex). lia. }
  split; [exact Hcount|]. unfold Feature.index.
  apply (index_fold b (Feature.count_empty b) feat 0 0); try done; lia.
Qed.

Lemma index_in_range_witness :
  0 <= Feature.count_empty [1; 2; 3; 4; 5; 6; 0; 0; 0; 0; 0; 0; 0; 0; 0; 0]
    <= 15 /\
  0 <= Feature.index [0; 1; 2; 3; 4; 5]
         [1; 2; 3; 4; 5; 6; 0; 0; 0; 0; 0; 0; 0; 0; 0; 0]
    < 16 ^ Z.of_nat (length [0; 1; 2; 3; 4; 5]).
Proof.
  apply (index_in_range [1; 2; 3; 4; 5; 6; 0; 0; 0; 0; 0; 0; 0; 0; 0; 0]
                        [0; 1; 2; 3; 4; 5]).
  - intros i Hi. apply In_cells in Hi. simpl in Hi.
    repeat (destruct Hi as [<- | Hi]; [vm_compute; split; congruence|]).
    destruct Hi.
  - exists 0. split; [unfold cell_pos; lia|vm_compute; discriminate].
  - repeat constructor; unfold position; lia.
  - simpl. lia.
Defined.

(** C6, as stated, fails on the board without a tile, the one every game
    starts from: the count of empty cells is 16, which takes five bits,
    and the feature made of the sentinel alone gets the index 16, one past
    the last entry of a table of 16. *)
Lemma empty_board_count_is_16 :
  Feature.count_empty (replicate 16 0) = 16 /\
  IsoFeature.create_iso_feature [-1] = [[-1]] /\
  Feature.index [-1] (replicate 16 0) = 16 ^ Z.of_nat (length [-1]).
Proof. repeat split; vm_compute; reflexivity. Qed.

(** Index packing: the ranks 1..6 in the cells 0..5 give the hexadecimal
    number 123456. *)
Example index_packing :
  Feature.index [0; 1; 2; 3; 4; 5]
    [1; 2; 3; 4; 5; 6; 0; 0; 0; 0; 0; 0; 0; 0; 0; 0] = 0x123456.
Proof. reflexivity. Qed.

(** ** take_action *)

Section TakeActionFacts.

Variable slide : board -> Z -> board * Z.
Variable a : ntuple.
Variable before : board.

Lemma try_op_spec best bop r op :
  try_op slide a before (best, bop, r) op
  = if negb (reward_of slide before op =? -1)
    then if double_ltb best (estimate slide a before op)
         then (estimate slide a before op, op, reward_of slide before op)
         else (best, bop, r)
    else (best, bop, r).
Proof.
  unfold try_op, estimate, reward_of. by destruct (slide before op).
Qed.

Lemma first_best_cons op ops o :
  (legal slide before op ->
   double_ltb (estimate slide a before op) (estimate slide a before o) = true
   \/ estimate slide a before op = S754_nan) ->
  first_best slide a before ops o ->
  first_best slide a before (op :: ops) o.
Proof.
  intros Hop (l1 & l2 & -> & Ho & H1 & H2).
  exists (op :: l1), l2. repeat split; try done.
  intros o' [<- | Ho'] Hok; [by apply Hop|by apply H1].
Qed.

(** The loop over the moves: either no legal move has an estimate above
    the starting [best] and nothing changes, or the loop ends on the
    first move among those of the largest estimate. *)
Lemma choose_spec ops : forall best bop r,
  let st := fold_left (try_op slide a before) ops (best, bop, r) in
  (st = (best, bop, r) /\
   forall op, In op ops -> legal slide before op ->
              double_ltb best (estimate slide a before op) = false)
  \/
  (exists op,
      first_best slide a before ops op /\
      double_ltb best (estimate slide a before op) = true /\
      st = (estimate slide a before op, op, reward_of slide before op)).
Proof.
  induction ops as [|op ops IH]; intros best bop r; cbv zeta.
  - left. split; [reflexivity|]. intros op [].
  - change (fold_left (try_op slide a before) (op :: ops) (best, bop, r))
      with (fold_left (try_op slide a before) ops
              (try_op slide a before (best, bop, r) op)).
    rewrite try_op_spec.
    destruct (Z.eqb_spec (reward_of slide before op) (-1)) as [Hill | Hleg];
      simpl negb; cbv iota.
    { (* an illegal move *)
      destruct (IH best bop r) as [[Hst Hall] | (o & Ho & Hlt & Hst)].
      - left. split; [exact Hst|].
        intros o [<- | Ho] Hok; [by destruct Hok|by apply Hall].
      - right. exists o. repeat split; try done.
        apply first_best_cons; [|exact Ho]. intros Hok. by destruct Hok. }
    destruct (double_ltb best (estimate slide a before op)) eqn:Hgt.
    + (* a legal move that beats [best] *)
      destruct (IH (estimate slide a before op) op (reward_of slide before op))
        as [[Hst Hall] | (o & Ho & Hlt & Hst)].
      * right. exists op. repeat split; try done.
        exists [], ops. repeat split; try done; intros o [].
      * right. exists o. repeat split; try done.
        -- apply first_best_cons; [|exact Ho]. intros _. by left.
        -- eapply double_ltb_trans; eassumption.
    + (* a legal move that does not beat [best] *)
      destruct (IH best bop r) as [[Hst Hall] | (o & Ho & Hlt & Hst)].
      * left. split; [exact Hst|].
        intros o [<- | Ho] Hok; [exact Hgt|by apply Hall].
      * right. exists o. repeat split; try done.
        apply first_best_cons; [|exact Ho].
        intros _. eapply double_ltb_beaten; eassumption.
Qed.

(** When some legal move has an estimate above -1, [take_action] returns
    the first move among the legal moves of the largest estimate, and
    pushes the board with the reward of that move. *)
Lemma take_action_best :
  Forall (fun op => op <> -1) (op_code a) ->
  (exists op, In op (op_code a) /\ legal slide before op /\
              double_ltb (double_of_int (-1)) (estimate slide a before op)
              = true) ->
  exists op,
    first_best slide a before (op_code a) op /\
    take_action slide a before
    = (action_slide op,
       set_history a ((before, reward_of slide before op) :: history a)).
Proof.
  intros Hops (op0 & Hin & Hok & Hgt). unfold take_action.
  destruct (choose_spec (op_code a) (double_of_int (-1)) (-1) 0)
    as [[_ Hall] | (op & Hop & _ & Hst)].
  - specialize (Hall op0 Hin Hok). congruence.
  - exists op. split; [exact Hop|]. rewrite Hst.
    assert (Hne : op <> -1).
    { destruct Hop as (l1 & l2 & Heq & _).
      rewrite List.Forall_forall in Hops. apply Hops.
      rewrite Heq. apply in_or_app. right. by left. }
    apply Z.eqb_neq in Hne. by rewrite Hne.
Qed.

(** When no legal move has an estimate above -1, [take_action] returns
    the null action and pushes the board with the reward 0, whether or
    not a move is legal. *)
Lemma take_action_low :
  (forall op, In op (op_code a) -> legal slide before op ->
              double_ltb (double_of_int (-1)) (estimate slide a before op)
              = false) ->
  take_action slide a before
  = (action_null, set_history a ((before, 0) :: history a)).
Proof.
  intros Hlow. unfold take_action.
  destruct (choose_spec (op_code a) (double_of_int (-1)) (-1) 0)
    as [[Hst _] | (op & (l1 & l2 & Heq & Hok & _) & Hlt & _)].
  - by rewrite Hst.
  - exfalso. rewrite Hlow in Hlt; [discriminate| |exact Hok].
    rewrite Heq. apply in_or_app. right. by left.
Qed.

Lemma take_action_pushes_one :
  length (history (snd (take_action slide a before)))
  = S (length (history a)).
Proof.
  unfold take_action.
  destruct (fold_left (try_op slide a before) (op_code a)
              (double_of_int (-1), -1, 0))
    as [[best bop] r].
  by destruct (negb (bop =? -1)).
Qed.

End TakeActionFacts.

(** C1.  The code does not do what the claim says: with weights that are
    all -1, loaded from a file, and a board with one tile in the corner,
    the moves right and down are legal, each with the estimate -28; none
    is above the starting value -1 of [best], so [take_action] returns the
    null action and pushes the board with the reward 0. *)
Theorem take_action_null_with_legal_moves :
  exists a,
    Sample.make Sample.low_disk "load=w.bin" = Returned a /\
    legal Sample.slide Sample.corner 1 /\
    estimate Sample.slide a Sample.corner 1 = double_of_int (-28) /\
    take_action Sample.slide a Sample.corner
    = (action_null, set_history a [(Sample.corner, 0)]).
Proof.
  eexists. split; [vm_compute; reflexivity|].
  split; [vm_compute; discriminate|].
  split; vm_compute; reflexivity.
Qed.

(** ** The weights *)

Lemma fold_pairs {A : Type} (g : A -> nat -> list Z -> A) (i : nat) iso :
  forall acc,
  fold_left (fun acc '(i, f) => g acc i f) (map (pair i) iso) acc
  = fold_left (fun acc f => g acc i f) iso acc.
Proof.
  induction iso as [|f iso IH]; intros acc; simpl; [reflexivity|]. apply IH.
Qed.

(** The two nested loops visit the pairs of [slots], in order. *)
Lemma fold_slots {A : Type} (g : A -> nat -> list Z -> A) features acc :
  fold_left (fun acc '(i, iso) => fold_left (fun acc f => g acc i f) iso acc)
            (enumerate features) acc
  = fold_left (fun acc '(i, f) => g acc i f) (slots features) acc.
Proof.
  unfold slots. revert acc.
  induction (enumerate features) as [|[i iso] l IH]; intros acc; simpl;
    [reflexivity|].
  by rewrite fold_left_app, fold_pairs, IH.
Qed.

Lemma get_value_slots a b :
  get_value a b
  = fold_left
      (fun sum '(i, f) =>
         double_add sum
           (double_of_float (net_at (net a) i (Feature.index f b))))
      (slots (features a)) (S754_zero false).
Proof.
  exact (fold_slots
           (fun sum i f =>
              double_add sum
                (double_of_float (net_at (net a) i (Feature.index f b))))
           (features a) (S754_zero false)).
Qed.

Lemma update_weight_slots a t s :
  net (update_weight a t s)
  = fold_left
      (fun net '(i, f) => net_add net i (Feature.index f s) (delta a t s))
      (slots (features a)) (net a).
Proof.
  exact (fold_slots
           (fun net i f => net_add net i (Feature.index f s) (delta a t s))
           (features a) (net a)).
Qed.

Lemma slots_in_range features i f :
  In (i, f) (slots features) -> (i < length features)%nat.
Proof.
  unfold slots, enumerate. intros H.
  apply in_flat_map in H as ([j iso] & Hin & Hf).
  apply in_map_iff in Hf as (f' & [= -> ->] & _).
  apply in_combine_l, in_seq in Hin. lia.
Qed.

Lemma net_add_length net i idx tg : length (net_add net i idx tg) = length net.
Proof.
  unfold net_add. destruct (net !! i); [apply length_insert|reflexivity].
Qed.

Lemma fold_add_length (s : board) tg (l : list (nat * list Z)) : forall net,
  length (fold_left (fun net '(i, f) => net_add net i (Feature.index f s) tg)
                    l net)
  = length net.
Proof.
  induction l as [|[i f] l IH]; intros net; simpl; [reflexivity|].
  by rewrite IH, net_add_length.
Qed.

(** [update_weight] keeps the number of tables. *)
Lemma update_weight_length a t s :
  length (net (update_weight a t s)) = length (net a).
Proof. rewrite update_weight_slots. apply fold_add_length. Qed.

Lemma replay_length calls : forall a,
  length (net (replay a calls)) = length (net a).
Proof.
  induction calls as [|c calls IH]; intros a; [reflexivity|].
  change (replay a (c :: calls))
    with (replay (update_weight a (fst c) (snd c)) calls).
  by rewrite IH, update_weight_length.
Qed.

Lemma replay_features calls : forall a,
  features (replay a calls) = features a.
Proof.
  induction calls as [|c calls IH]; intros a; [reflexivity|].
  change (replay a (c :: calls))
    with (replay (update_weight a (fst c) (snd c)) calls).
  by rewrite IH.
Qed.

(** What [net[i][idx] += tg] leaves in the entry [jdx] of table [j]. *)
Lemma net_at_add net i idx tg j jdx :
  (i < length net)%nat ->
  net_at (net_add net i idx tg) j jdx
  = if Nat.eqb i j && (jdx =? idx)
    then step tg (net_at net j jdx) else net_at net j jdx.
Proof.
  intros Hi. unfold net_add, net_at.
  destruct (net !! i) as [w|] eqn:Hw.
  - destruct (Nat.eqb_spec i j) as [<-|Hne]; simpl.
    + rewrite list_lookup_insert_eq by done. rewrite Hw. simpl.
      unfold weight_add. by destruct (jdx =? idx).
    + by rewrite list_lookup_insert_ne.
  - apply lookup_ge_None in Hw. lia.
Qed.

(** After the loops of [update_weight] an entry has received the step
    once for every pair that addresses it, one [+=] after the other. *)
Lemma fold_add_count (s : board) tg (l : list (nat * list Z)) :
  forall net j jdx,
    (forall i f, In (i, f) l -> (i < length net)%nat) ->
    net_at (fold_left (fun net '(i, f) => net_add net i (Feature.index f s) tg)
                      l net) j jdx
    = Nat.iter
        (length (List.filter
                   (fun '(i, f) => Nat.eqb i j && (Feature.index f s =? jdx))
                   l))
        (step tg) (net_at net j jdx).
Proof.
  induction l as [|[i f] l IH]; intros net j jdx Hrange; [reflexivity|].
  change (fold_left _ ((i, f) :: l) net)
    with (fold_left (fun net '(i, f) => net_add net i (Feature.index f s) tg)
                    l (net_add net i (Feature.index f s) tg)).
  rewrite IH
    by (intros i' f' H; rewrite net_add_length; apply (Hrange i' f');
        by right).
  rewrite net_at_add by (apply (Hrange i f); by left).
  cbn [List.filter]. rewrite (Z.eqb_sym jdx).
  destruct (Nat.eqb i j && (Feature.index f s =? jdx)); [|reflexivity].
  cbn [length]. by rewrite Nat.iter_succ_r.
Qed.

Lemma update_weight_entries a t s i idx :
  (length (features a) <= length (net a))%nat ->
  net_at (net (update_weight a t s)) i idx
  = Nat.iter (hits (features a) s i idx) (step (delta a t s))
             (net_at (net a) i idx).
Proof.
  intros Hlen. rewrite update_weight_slots, fold_add_count; [reflexivity|].
  intros j f Hjf. apply slots_in_range in Hjf. lia.
Qed.

(** ** Episodes *)

Lemma update_weight_history a t s :
  history (update_weight a t s) = history a.
Proof. reflexivity. Qed.

Lemma update_weight_set_history a h t s :
  update_weight (set_history a h) t s = set_history (update_weight a t s) h.
Proof. reflexivity. Qed.

Lemma open_episode_empty a : history (open_episode a) = [].
Proof.
  unfold open_episode. simpl.
  induction (history a) as [|e h IH]; [reflexivity|]. exact IH.
Qed.

Lemma get_value_set_history a h b :
  get_value (set_history a h) b = get_value a b.
Proof. reflexivity. Qed.

Lemma backward_calls_set_history trajectory : forall a h prev,
  backward_calls (set_history a h) prev trajectory
  = backward_calls a prev trajectory.
Proof.
  induction trajectory as [|[s r] rest IH]; intros a h prev; [reflexivity|].
  cbn [backward_calls].
  by rewrite get_value_set_history, update_weight_set_history, IH.
Qed.

Lemma replay_set_history calls : forall a h,
  replay (set_history a h) calls = set_history (replay a calls) h.
Proof.
  induction calls as [|c calls IH]; intros a h; [reflexivity|].
  change (replay (set_history a h) (c :: calls))
    with (replay (update_weight (set_history a h) (fst c) (snd c)) calls).
  by rewrite update_weight_set_history, IH.
Qed.

(** The loop of [close_episode] makes the calls of the backward pass, and
    leaves the agent these calls give, with an empty stack. *)
Lemma close_episode_loop_spec h : forall a prev calls,
  close_episode_loop (set_history a h) prev h calls
  = (set_history (replay a (backward_calls a prev h)) [],
     calls ++ backward_calls a prev h).
Proof.
  induction h as [|[s r] h IH]; intros a prev calls.
  - simpl. by rewrite app_nil_r.
  - cbn [close_episode_loop backward_calls fst snd].
    change (set_history (set_history a ((s, r) :: h)) h) with (set_history a h).
    rewrite get_value_set_history, update_weight_set_history, IH.
    by rewrite <- app_assoc.
Qed.

Lemma play_history_nonempty slide boards : forall a,
  history a <> [] \/ boards <> [] -> history (play slide a boards) <> [].
Proof.
  induction boards as [|b boards IH]; intros a Hne.
  - simpl. by destruct Hne.
  - change (play slide a (b :: boards))
      with (play slide (snd (take_action slide a b)) boards).
    apply IH. left.
    pose proof (take_action_pushes_one slide a b) as Hlen.
    destruct (history (snd (take_action slide a b))); [discriminate|done].
Qed.

(** [take_action] touches nothing but the trajectory. *)
Lemma take_action_frame slide a b :
  net (snd (take_action slide a b)) = net a /\
  alpha (snd (take_action slide a b)) = alpha a /\
  features (snd (take_action slide a b)) = features a.
Proof.
  unfold take_action.
  destruct (fold_left (try_op slide a b) (op_code a)
              (double_of_int (-1), -1, 0))
    as [[best bop] r].
  by destruct (negb (bop =? -1)).
Qed.

Lemma play_frame slide boards : forall a,
  net (play slide a boards) = net a /\
  features (play slide a boards) = features a.
Proof.
  induction boards as [|b boards IH]; intros a; [by split|].
  change (play slide a (b :: boards))
    with (play slide (snd (take_action slide a b)) boards).
  destruct (IH (snd (take_action slide a b))) as [-> ->].
  destruct (take_action_frame slide a b) as (-> & _ & ->). by split.
Qed.

Lemma close_episode_defined a :
  history a <> [] ->
  exists a' calls, close_episode a = Some (a', calls) /\ history a' = [].
Proof.
  intros Hne. unfold close_episode.
  destruct (history a) as [|[s r] h] eqn:Hh; [done|].
  cbn [fst]. rewrite update_weight_set_history, close_episode_loop_spec.
  eexists _, _. split; reflexivity.
Qed.

Lemma backward_calls_length h : forall a prev,
  length (backward_calls a prev h) = length h.
Proof.
  induction h as [|[s r] h IH]; intros a prev; [reflexivity|].
  cbn [backward_calls length]. by rewrite IH.
Qed.

(** The call for the [k]-th entry of the remaining trajectory: its target
    is the reward of the entry plus the value of the state of the call
    before, on the weights the calls before have left. *)
Lemma backward_calls_lookup (rest : list target) :
  forall (a : ntuple) (prev : board) (k : nat) s_k r_k,
  rest !! k = Some (s_k, r_k) ->
  exists p,
    (prev :: map fst rest) !! k = Some p /\
    backward_calls a prev rest !! k
    = Some (double_add (double_of_int r_k)
              (get_value (replay a (take k (backward_calls a prev rest))) p),
            s_k).
Proof.
  induction rest as [|[s0 r0] rest IH]; intros a prev k s_k r_k Hk; [done|].
  destruct k as [|k].
  - injection Hk as -> ->. exists prev. split; reflexivity.
  - cbn [backward_calls].
    destruct (IH (update_weight a
                    (double_add (double_of_int r0) (get_value a prev)) s0)
                 s0 k s_k r_k Hk) as (p & Hp & Hcall).
    exists p. split; [exact Hp|exact Hcall].
Qed.

(** [close_episode] on a stack with [(s, r)] on top: the call with the
    target 0 on [s], then the backward pass over the rest. *)
Lemma close_episode_calls a s r rest :
  history a = (s, r) :: rest ->
  let calls :=
    (double_of_int 0, s)
      :: backward_calls (update_weight a (double_of_int 0) s) s rest in
  close_episode a = Some (set_history (replay a calls) [], calls).
Proof.
  intros Hh calls. unfold close_episode. rewrite Hh. cbn [fst].
  by rewrite update_weight_set_history, close_episode_loop_spec.
Qed.

(** C2.  For an agent with a table for every base feature, on a
    trajectory whose last entry is [(s, r)], [close_episode] makes one
    call of [update_weight] for each entry: the first with the target 0 on
    [s]; the call for the [k]-th entry under [s], in the order of the
    stack, on the state of that entry and with its reward plus the value
    of the state of the call before, taken on the weights as the calls
    before have left them; every call is made on an agent that still has a
    table for every base feature, and the agent [close_episode] leaves is
    the one these calls give, with an empty stack.  A trajectory of one
    entry gives the single call with target 0. *)
Theorem close_episode_backward_pass a s r rest :
  (length (features a) <= length (net a))%nat ->
  history a = (s, r) :: rest ->
  exists calls : list call,
    close_episode a = Some (set_history (replay a calls) [], calls) /\
    length calls = S (length rest) /\
    calls !! 0%nat = Some (double_of_int 0, s) /\
    (forall (k : nat) s_k r_k, rest !! k = Some (s_k, r_k) ->
       exists p,
         (s :: map fst rest) !! k = Some p /\
         calls !! S k
         = Some (double_add (double_of_int r_k)
                   (get_value (replay a (take (S k) calls)) p),
                 s_k)) /\
    (forall k : nat,
       (length (features (replay a (take k calls)))
        <= length (net (replay a (take k calls))))%nat) /\
    (rest = [] -> calls = [(double_of_int 0, s)]).
Proof.
  intros Hlen Hh.
  exists ((double_of_int 0, s)
            :: backward_calls (update_weight a (double_of_int 0) s) s rest).
  split; [|split; [|split; [|split; [|split]]]].
  - exact (close_episode_calls a s r rest Hh).
  - cbn [length]. by rewrite backward_calls_length.
  - reflexivity.
  - intros k s_k r_k Hk.
    exact (backward_calls_lookup rest (update_weight a (double_of_int 0) s)
                                 s k s_k r_k Hk).
  - intros k. by rewrite replay_features, replay_length.
  - by intros ->.
Qed.

Lemma close_episode_backward_pass_witness :
  exists calls : list call,
    close_episode Sample.taught
    = Some (set_history (replay Sample.taught calls) [], calls) /\
    length calls = S (length Sample.earlier) /\
    calls !! 0%nat = Some (double_of_int 0, Sample.corner) /\
    (forall (k : nat) s_k r_k, Sample.earlier !! k = Some (s_k, r_k) ->
       exists p,
         (Sample.corner :: map fst Sample.earlier) !! k = Some p /\
         calls !! S k
         = Some (double_add (double_of_int r_k)
                   (get_value (replay Sample.taught (take (S k) calls)) p),
                 s_k)) /\
    (forall k : nat,
       (length (features (replay Sample.taught (take k calls)))
        <= length (net (replay Sample.taught (take k calls))))%nat) /\
    (Sample.earlier = [] -> calls = [(double_of_int 0, Sample.corner)]).
Proof.
  apply (close_episode_backward_pass Sample.taught Sample.corner 0
                                     Sample.earlier).
  - vm_compute. lia.
  - reflexivity.
Defined.

(** On tables that hold 1 everywhere, with the learning rate 0.1: the
    first call lowers the value of the corner board from 28, and the
    target of the second call is the reward 4 plus the lowered value, not
    4 plus 28. *)
Example close_episode_reevaluates :
  get_value Sample.taught Sample.corner = double_of_int 28 /\
  exists t,
    option_map snd (close_episode Sample.taught)
    = Some [(double_of_int 0, Sample.corner); (t, Sample.block)] /\
    t = double_add (double_of_int 4)
          (get_value (update_weight Sample.taught (double_of_int 0)
                                    Sample.corner)
                     Sample.corner) /\
    double_ltb t (double_of_int 32) = true.
Proof.
  split; [vm_compute; reflexivity|].
  eexists. split; [vm_compute; reflexivity|].
  split; vm_compute; reflexivity.
Qed.

(** The single-move episode: one entry with the reward 4 gives one call,
    with the target 0. *)
Example close_episode_single_entry :
  option_map snd (close_episode (set_history Sample.fresh Sample.earlier))
  = Some [(double_of_int 0, Sample.block)].
Proof. reflexivity. Qed.

(** C8 (amended).  For an agent with a table for every base feature:
    after [take_action] on each of a list of boards, with at least one
    board or a trajectory that was not empty, [close_episode] leaves the
    trajectory empty; [open_episode] leaves it empty whatever it held; and
    every call of [take_action] makes it longer by one entry and leaves
    the tables as they are. *)
Theorem episode_bookkeeping slide a boards :
  (length (features a) <= length (net a))%nat ->
  history a <> [] \/ boards <> [] ->
  (exists a' calls,
      close_episode (play slide a boards) = Some (a', calls) /\
      history a' = [] /\
      (length (features a') <= length (net a'))%nat) /\
  history (open_episode a) = [] /\
  (forall b, length (history (snd (take_action slide a b)))
             = S (length (history a)) /\
             net (snd (take_action slide a b)) = net a).
Proof.
  intros Hlen Hne. split; [|split].
  - pose proof (play_history_nonempty slide boards a Hne) as Hh.
    destruct (history (play slide a boards)) as [|[s r] rest] eqn:Hplay;
      [done|].
    rewrite (close_episode_calls _ s r rest Hplay).
    eexists _, _. split; [reflexivity|]. split; [reflexivity|].
    cbn [features net set_history].
    rewrite replay_features, replay_length.
    destruct (play_frame slide boards a) as [-> ->]. exact Hlen.
  - apply open_episode_empty.
  - intros b. split; [apply take_action_pushes_one|].
    apply take_action_frame.
Qed.

Lemma episode_bookkeeping_witness :
  (exists a' calls,
      close_episode (play Sample.slide Sample.fresh [Sample.corner])
      = Some (a', calls) /\
      history a' = [] /\
      (length (features a') <= length (net a'))%nat) /\
  history (open_episode Sample.fresh) = [] /\
  (forall b, length (history (snd (take_action Sample.slide Sample.fresh b)))
             = S (length (history Sample.fresh)) /\
             net (snd (take_action Sample.slide Sample.fresh b))
             = net Sample.fresh).
Proof.
  apply (episode_bookkeeping Sample.slide Sample.fresh [Sample.corner]).
  - vm_compute. lia.
  - right. discriminate.
Defined.

(** C8, as stated, fails for the sequence of no call: after
    [open_episode] the stack is empty, and [close_episode] reads the top of
    an empty stack, which gives no defined result. *)
Lemma close_episode_without_a_move :
  Sample.make ∅ Sample.args = Returned Sample.fresh /\
  history (play Sample.slide (open_episode Sample.fresh) []) = [] /\
  close_episode (play Sample.slide (open_episode Sample.fresh) []) = None.
Proof. split; [vm_compute; reflexivity|]. split; reflexivity. Qed.

(** ** Construction *)

Section Construction.

Variable stod : string -> option double.
Variable file : Type.
Variable open_in : string -> option file.
Variable read_u32 : file -> Z * file.
Variable read_weight : file -> weight -> weight * file.

(** What the constructor fixes once for all. *)
Lemma ntuple_new_fields args a0 :
  ntuple_new stod file open_in read_u32 read_weight args = Returned a0 ->
  features a0 = map IsoFeature.create_iso_feature feats /\
  feature_num a0 = 28 /\
  op_code a0 = [0; 1; 2; 3] /\
  history a0 = [].
Proof.
  unfold ntuple_new.
  destruct (weight_agent_new stod file open_in read_u32 read_weight args);
    simpl; [|discriminate..].
  intros [= <-]. repeat split; vm_compute; reflexivity.
Qed.

Lemma ntuple_new_alpha args a0 :
  agent.new args !! "alpha" = None ->
  ntuple_new stod file open_in read_u32 read_weight args = Returned a0 ->
  alpha a0 = S754_zero false.
Proof.
  intros Hnone. unfold ntuple_new, weight_agent_new.
  rewrite Hnone.
  destruct (agent.new args !! "init"); cbn [bind];
    (destruct (agent.new args !! "load") as [path|]; cbn [bind];
     [destruct (load_weights file open_in read_u32 read_weight path _);
      cbn [bind]; [|discriminate..]|]);
    by intros [= <-].
Qed.

End Construction.

Lemma configured_slots :
  Z.of_nat (length (slots (map IsoFeature.create_iso_feature feats))) = 28.
Proof. vm_compute. reflexivity. Qed.

(** C3.  For an agent made by the constructor, whatever weights (one
    table at least for every base feature) and trajectory it has come to:
    [feature_num] is the number of pairs of a base feature and a variant of
    its orbit, and [update_weight] computes one step,
    [alpha / feature_num * (target - value)] in [double], the value being
    taken on the weights before the call, and adds it to every entry [idx]
    of every table [i] once for every such pair that addresses the entry
    on the board, each time as the sum in [double] of the entry and the
    step, stored as a [float]; nothing but the weights changes. *)
Theorem update_weight_adds_delta
  stod file open_in read_u32 read_weight args a0 net' h' target curr :
  ntuple_new stod file open_in read_u32 read_weight args = Returned a0 ->
  (length (features a0) <= length net')%nat ->
  let a := set_history (set_net a0 net') h' in
  let n := Z.of_nat (length (slots (features a))) in
  let d := double_mul
             (double_div (double_of_float (alpha a)) (double_of_int n))
             (double_sub target (get_value a curr)) in
  feature_num a = n /\
  (forall i idx,
      net_at (net (update_weight a target curr)) i idx
      = Nat.iter (hits (features a) curr i idx)
                 (fun w => float_of_double (double_add (double_of_float w) d))
                 (net_at net' i idx)) /\
  update_weight a target curr = set_net a (net (update_weight a target curr)).
Proof.
  intros Hnew Hlen a n d.
  destruct (ntuple_new_fields _ _ _ _ _ _ _ Hnew) as (Hfeat & Hnum & _ & _).
  assert (Hn : feature_num a = n).
  { subst n a. cbn [feature_num features set_history set_net].
    by rewrite Hnum, Hfeat, configured_slots. }
  split; [exact Hn|]. split; [|reflexivity].
  intros i idx. rewrite update_weight_entries by exact Hlen.
  unfold delta. subst d. by rewrite Hn.
Qed.

Lemma update_weight_adds_delta_witness :
  let a := set_history (set_net Sample.fresh (replicate 4 weight_zero))
                       Sample.earlier in
  let n := Z.of_nat (length (slots (features a))) in
  let d := double_mul
             (double_div (double_of_float (alpha a)) (double_of_int n))
             (double_sub (double_of_int 5) (get_value a Sample.block)) in
  feature_num a = n /\
  (forall i idx,
      net_at (net (update_weight a (double_of_int 5) Sample.block)) i idx
      = Nat.iter (hits (features a) Sample.block i idx)
                 (fun w => float_of_double (double_add (double_of_float w) d))
                 (net_at (replicate 4 weight_zero) i idx)) /\
  update_weight a (double_of_int 5) Sample.block
  = set_net a (net (update_weight a (double_of_int 5) Sample.block)).
Proof.
  apply (update_weight_adds_delta Sample.stod Sample.file
           (fun path => (∅ : gmap string Sample.file) !! path)
           Sample.read_u32 Sample.read_weight Sample.args Sample.fresh).
  - vm_compute. reflexivity.
  - vm_compute. lia.
Defined.

(** The step as the code computes it.  With the learning rate 0.1, a
    [float], and the target 5 on zero tables, the entry 0x123456 of the
    third table, addressed once, becomes 9586981/2^29 and not 1/56; and a
    step of 1 added to an entry that holds 2^25 is lost in the rounding. *)
Example update_weight_rounds :
  hits (features Sample.fresh) Sample.block 2 0x123456 = 1%nat /\
  net_at (net (update_weight Sample.fresh (double_of_int 5) Sample.block))
         2 0x123456
  = S754_finite false 9586981 (-29) /\
  step (double_of_int 1) (Sample.number (2 ^ 25)) = Sample.number (2 ^ 25).
Proof. repeat split; vm_compute; reflexivity. Qed.

(** ** No learning rate *)

(** The value is the same number on tables that hold the same numbers. *)
Lemma get_value_same a a' b :
  features a' = features a -> same_weights a a' ->
  same_number (get_value a b) (get_value a' b).
Proof.
  intros Hf Hw. rewrite !get_value_slots, Hf.
  generalize (same_number_refl (S754_zero false)).
  generalize (S754_zero false) at 1 3. generalize (S754_zero false).
  induction (slots (features a)) as [|[i f] l IH]; intros acc acc' Hacc;
    [exact Hacc|].
  cbn [fold_left]. apply IH.
  apply double_add_same; [exact Hacc|]. apply double_of_float_same, Hw.
Qed.

Lemma zero_step :
  double_div (double_of_float (S754_zero false)) (double_of_int 28)
  = S754_zero false.
Proof. vm_compute. reflexivity. Qed.

(** With the learning rate 0 the step is a zero as long as the
    difference of the target and the value is finite. *)
Lemma delta_no_alpha a t s :
  alpha a = S754_zero false -> feature_num a = 28 ->
  finite (double_sub t (get_value a s)) = true ->
  is_zero (delta a t s) = true.
Proof.
  intros Ha Hn Hfin. unfold delta. rewrite Ha, Hn, zero_step.
  by destruct (double_sub t (get_value a s)).
Qed.

Lemma update_weight_no_alpha a t s :
  alpha a = S754_zero false -> feature_num a = 28 ->
  (length (features a) <= length (net a))%nat ->
  (forall i idx, is_float (net_at (net a) i idx)) ->
  finite (double_sub t (get_value a s)) = true ->
  same_weights a (update_weight a t s).
Proof.
  intros Ha Hn Hlen Hval Hfin i idx.
  rewrite update_weight_entries by exact Hlen.
  apply iter_step_zero; [apply Hval|]. by apply delta_no_alpha.
Qed.

Lemma replay_no_alpha a0 calls : forall a,
  alpha a = S754_zero false -> feature_num a = 28 ->
  features a = features a0 ->
  (length (features a) <= length (net a))%nat ->
  (forall i idx, is_float (net_at (net a) i idx)) ->
  same_weights a0 a ->
  Forall (fun c => finite (double_sub (fst c) (get_value a0 (snd c))) = true)
         calls ->
  same_weights a0 (replay a calls).
Proof.
  induction calls as [|[t s] calls IH];
    intros a Ha Hn Hf Hlen Hval Hsame Hfin; [exact Hsame|].
  inversion Hfin as [|? ? Hc Hrest]; subst. cbn [fst snd] in Hc.
  change (replay a ((t, s) :: calls)) with (replay (update_weight a t s) calls).
  assert (Hstep : same_weights a (update_weight a t s)).
  { apply update_weight_no_alpha; try done.
    rewrite <- Hc. symmetry. apply finite_same, double_sub_same;
      [apply same_number_refl|]. by apply get_value_same. }
  apply IH; try done.
  - by rewrite update_weight_length.
  - intros i idx. by apply (same_number_float (net_at (net a) i idx)).
  - intros i idx. by apply (same_number_trans _ (net_at (net a) i idx)).
Qed.

(** C10 (amended).  An agent made from arguments without an [alpha]
    option has the learning rate 0.  Whatever trajectory and tables of
    [float] numbers it has come to, with a table for every base feature:
    a call of [update_weight] for which the difference of the target and
    the value is finite leaves every entry of every table the same number,
    and so does a call of [close_episode] when this holds for every call
    of [update_weight] it makes; the sign of an entry that is zero may
    change. *)
Theorem no_alpha_no_learning
  stod file open_in read_u32 read_weight args a0 :
  agent.new args !! "alpha" = None ->
  ntuple_new stod file open_in read_u32 read_weight args = Returned a0 ->
  alpha a0 = S754_zero false /\
  forall net' h',
    (length (features a0) <= length net')%nat ->
    (forall i idx, is_float (net_at net' i idx)) ->
    let a := set_history (set_net a0 net') h' in
    (forall t s,
        finite (double_sub t (get_value a s)) = true ->
        same_weights a (update_weight a t s)) /\
    (forall a' calls,
        close_episode a = Some (a', calls) ->
        Forall (fun c => finite (double_sub (fst c) (get_value a (snd c)))
                         = true) calls ->
        same_weights a a').
Proof.
  intros Hnone Hnew.
  pose proof (ntuple_new_alpha _ _ _ _ _ _ _ Hnone Hnew) as Ha.
  destruct (ntuple_new_fields _ _ _ _ _ _ _ Hnew) as (_ & Hnum & _ & _).
  split; [exact Ha|]. intros net' h' Hlen Hval a.
  split.
  - intros t s Hfin. by apply update_weight_no_alpha.
  - intros a' calls Hclose Hfin.
    destruct (history a) as [|[s r] rest] eqn:Hh.
    + unfold close_episode in Hclose. by rewrite Hh in Hclose.
    + rewrite (close_episode_calls a s r rest Hh) in Hclose.
      injection Hclose as <- <-.
      intros i idx.
      exact (replay_no_alpha a _ a Ha Hnum eq_refl Hlen Hval
               (fun j jdx => same_number_refl _) Hfin i idx).
Qed.

Lemma no_alpha_no_learning_witness :
  let a := set_history (set_net Sample.frozen Sample.mixed_net)
                       ((Sample.corner, 0) :: Sample.earlier) in
  alpha Sample.frozen = S754_zero false /\
  same_weights a (update_weight a (double_of_int 5) Sample.block) /\
  exists a' calls,
    close_episode a = Some (a', calls) /\ length calls = 2%nat /\
    same_weights a a'.
Proof.
  intros a.
  destruct (no_alpha_no_learning Sample.stod Sample.file
              (fun path => (∅ : gmap string Sample.file) !! path)
              Sample.read_u32 Sample.read_weight Sample.args0 Sample.frozen)
    as [Ha H].
  - vm_compute. reflexivity.
  - vm_compute. reflexivity.
  - destruct (H Sample.mixed_net ((Sample.corner, 0) :: Sample.earlier))
      as [Hup Hclose].
    + vm_compute. lia.
    + intros i idx. by destruct i as [|[|[|[|i]]]].
    + split; [exact Ha|]. split.
      * apply Hup. vm_compute. reflexivity.
      * eexists _, _. split; [reflexivity|]. split; [reflexivity|].
        eapply Hclose; [reflexivity|].
        repeat constructor; vm_compute; reflexivity.
Defined.

(** Adding the zero step turns an entry -0 into +0. *)
Example zero_step_changes_the_sign_of_zero :
  step (S754_zero false) (S754_zero true) = S754_zero false /\
  same_number (S754_zero true) (S754_zero false).
Proof. split; [reflexivity|]. by right. Qed.

(** C10, as stated, fails on tables that hold an infinity, which a
    weight file can bring: the agent has no [alpha] option and the
    learning rate 0, the value of the corner board is the infinity, the
    step [0/28 * (0 - value)] is NaN, and the entry 0x100000 of the first
    table, which the board addresses, goes from the infinity to NaN. *)
Lemma no_alpha_turns_infinite_weights_into_nan :
  exists a,
    Sample.make Sample.infinite_disk "load=w.bin" = Returned a /\
    agent.new "load=w.bin" !! "alpha" = None /\
    alpha a = S754_zero false /\
    (length (features a) <= length (net a))%nat /\
    (forall i idx, is_float (net_at (net a) i idx)) /\
    (0 < hits (features a) Sample.corner 0 0x100000)%nat /\
    net_at (net a) 0 0x100000 = S754_infinity false /\
    net_at (net (update_weight a (double_of_int 0) Sample.corner)) 0 0x100000
    = S754_nan.
Proof.
  eexists. split; [vm_compute; reflexivity|].
  split; [vm_compute; reflexivity|].
  split; [reflexivity|].
  split; [vm_compute; lia|].
  split.
  - intros i idx. by destruct i as [|[|[|[|i]]]].
  - split; [vm_compute; lia|]. split; vm_compute; reflexivity.
Qed.

(** ** Files that cannot be opened *)

(** C9.  When the file of the [load] option cannot be opened,
    [load_weights] leaves through [std::exit(-1)], and so do the
    constructors of [weight_agent] and of [ntuple]: no agent is made.
    When the file of the [save] option cannot be opened, [save_weights] and
    the destructor leave through [std::exit(-1)]: nothing is written. *)
Theorem file_open_failure_exits
  stod file open_in read_u32 read_weight open_out write_u32 write_weight
  args load_path (a : weight_agent) save_path net :
  agent.new args !! "load" = Some load_path ->
  open_in load_path = None ->
  wa_meta a !! "save" = Some save_path ->
  open_out save_path = None ->
  load_weights file open_in read_u32 read_weight load_path net = Exited (-1) /\
  weight_agent_new stod file open_in read_u32 read_weight args = Exited (-1) /\
  ntuple_new stod file open_in read_u32 read_weight args = Exited (-1) /\
  save_weights file open_out write_u32 write_weight save_path net
  = Exited (-1) /\
  weight_agent_delete file open_out write_u32 write_weight a = Exited (-1).
Proof.
  intros Hload Hin Hsave Hout.
  assert (Hl : forall net0,
             load_weights file open_in read_u32 read_weight load_path net0
             = Exited (-1)).
  { intros net0. unfold load_weights. by rewrite Hin. }
  assert (Hs : forall net0,
             save_weights file open_out write_u32 write_weight save_path net0
             = Exited (-1)).
  { intros net0. unfold save_weights. by rewrite Hout. }
  assert (Hnew : weight_agent_new stod file open_in read_u32 read_weight args
                 = Exited (-1)).
  { unfold weight_agent_new. rewrite Hload.
    destruct (agent.new args !! "init"); cbn [bind]; by rewrite Hl. }
  repeat split; try done.
  - unfold ntuple_new. by rewrite Hnew.
  - unfold weight_agent_delete. by rewrite Hsave, Hs.
Qed.

Lemma file_open_failure_exits_witness :
  load_weights Sample.file (fun path => (∅ : gmap string Sample.file) !! path)
    Sample.read_u32 Sample.read_weight "missing.bin" [] = Exited (-1) /\
  weight_agent_new Sample.stod Sample.file
    (fun path => (∅ : gmap string Sample.file) !! path)
    Sample.read_u32 Sample.read_weight "load=missing.bin alpha=0.1"
  = Exited (-1) /\
  ntuple_new Sample.stod Sample.file
    (fun path => (∅ : gmap string Sample.file) !! path)
    Sample.read_u32 Sample.read_weight "load=missing.bin alpha=0.1"
  = Exited (-1) /\
  save_weights Sample.file Sample.no_open_out Sample.write_u32
    Sample.write_weight "out.bin" [] = Exited (-1) /\
  weight_agent_delete Sample.file Sample.no_open_out Sample.write_u32
    Sample.write_weight Sample.saver = Exited (-1).
Proof.
  apply (file_open_failure_exits Sample.stod Sample.file
           (fun path => (∅ : gmap string Sample.file) !! path)
           Sample.read_u32 Sample.read_weight Sample.no_open_out
           Sample.write_u32 Sample.write_weight
           "load=missing.bin alpha=0.1" "missing.bin" Sample.saver "out.bin"
           []).
  - vm_compute. reflexivity.
  - reflexivity.
  - vm_compute. reflexivity.
  - reflexivity.
Defined.

(** ** Symmetries of the board *)

Lemma nth_cells k : cell_pos k -> nth (Z.to_nat k) cells 0 = k.
Proof.
  intros Hk. unfold cells, cell_pos in *.
  change 0 with (Z.of_nat 0) at 1. rewrite map_nth, seq_nth by lia. lia.
Qed.

Lemma board_at_transform sigma b k :
  cell_pos k -> board_at (transform sigma b) k = board_at b (sigma k).
Proof.
  intros Hk. unfold transform. unfold board_at at 1.
  rewrite (nth_indep _ 0 (board_at b (sigma 0)))
    by (rewrite List.length_map; unfold cell_pos in Hk; simpl; lia).
  rewrite (map_nth (fun i => board_at b (sigma i))).
  by rewrite nth_cells.
Qed.

(** The index of a feature made of cells on a transformed board is the
    index of the transformed feature on the board. *)
Lemma index_transform sigma b f :
  (forall k, cell_pos k -> cell_pos (sigma k)) ->
  Forall cell_pos f ->
  Feature.index f (transform sigma b) = Feature.index (map sigma f) b.
Proof.
  intros Hsigma Hf. unfold Feature.index.
  generalize (Feature.count_empty (transform sigma b)) as e'.
  generalize (Feature.count_empty b) as e. generalize 0 as idx.
  induction Hf as [|k f Hk _ IH]; intros idx e e'; [reflexivity|].
  cbn [map fold_left].
  rewrite (IH (Feature.index_step (transform sigma b) e' idx k) e e').
  f_equal. unfold Feature.index_step.
  pose proof (Hsigma k Hk) as Hsk. unfold cell_pos in Hk, Hsk.
  destruct (Z.eqb_spec k (-1)); [lia|].
  destruct (Z.eqb_spec (sigma k) (-1)); [lia|].
  by rewrite board_at_transform.
Qed.

Lemma configured_slots_cells :
  forall x, In x (slots (map IsoFeature.create_iso_feature feats)) ->
            Forall cell_pos (snd x).
Proof.
  assert (H : forallb (fun x => cells_only (snd x))
                (slots (map IsoFeature.create_iso_feature feats)) = true)
    by (vm_compute; reflexivity).
  rewrite forallb_forall in H. intros x Hx. specialize (H x Hx).
  unfold cells_only in H. rewrite forallb_forall in H.
  apply List.Forall_forall. intros k Hk. specialize (H k Hk).
  apply andb_prop in H. unfold cell_pos. lia.
Qed.

(** Outside the third base feature, each of the symmetries permutes the
    pairs of a base feature and a variant: the base features 0, 1 and 3
    have orbits of eight variants. *)
Lemma configured_slots_permuted p :
  In p paths ->
  Permutation
    (map (slot_through (apply_path p))
         (outside_block (slots (map IsoFeature.create_iso_feature feats))))
    (outside_block (slots (map IsoFeature.create_iso_feature feats))).
Proof.
  intros Hp. unfold paths in Hp. simpl in Hp.
  repeat (destruct Hp as [<- | Hp];
          [apply (bool_decide_unpack _); vm_compute; exact I|]).
  destruct Hp.
Qed.

(** C4.  The code does not do what the claim says.  The third base
    feature, [5; 6; 7; 9; 10; 11], covers a block of cells that the
    exchange of the rows maps to itself; [create_iso_feature] tells
    variants apart by their hashes, which forget the order of the cells,
    and keeps four of its eight variants.  With a weight 1 at the index
    0x123456 of the third table, the board with the ranks 1..6 on the block
    has the value 1 and the same board with its rows exchanged has the
    value 0. *)
Theorem get_value_not_symmetric :
  exists a,
    Sample.make Sample.peak_disk "load=w.bin" = Returned a /\
    In Sample.flip_path paths /\
    transform (apply_path Sample.flip_path) Sample.block
    = [0; 0; 0; 0; 0; 4; 5; 6; 0; 1; 2; 3; 0; 0; 0; 0] /\
    length (nth 2 (features a) []) = 4%nat /\
    get_value a Sample.block = double_of_int 1 /\
    get_value a (transform (apply_path Sample.flip_path) Sample.block)
    = double_of_int 0.
Proof.
  eexists. split; [vm_compute; reflexivity|].
  split; [vm_compute; auto 10|].
  repeat split; vm_compute; reflexivity.
Qed.

(** * The rest of agent.h *)

(** ** Words and pairs *)

Lemma app_cons c (s t : string) : String c s +:+ t = String c (s +:+ t).
Proof. reflexivity. Qed.

Lemma app_assoc_string (s t u : string) : (s +:+ t) +:+ u = s +:+ (t +:+ u).
Proof.
  induction s as [|c s IH]; [reflexivity|]. by rewrite !app_cons, IH.
Qed.

Lemma rev_app_app (s t u : string) :
  String.rev_app s t +:+ u = String.rev_app s (t +:+ u).
Proof.
  revert t. induction s as [|c s IH]; intros t; [reflexivity|].
  simpl. by rewrite IH, app_cons.
Qed.

(** A space ends the word that is being read. *)
Lemma words_go_space (s t : string) : forall cur,
  String.words_go cur (s +:+ String " " t)
  = String.words_go cur s ++ String.words_go None t.
Proof.
  induction s as [|c s IH]; intros cur; [reflexivity|].
  rewrite app_cons. simpl. destruct (Ascii.is_space c).
  - by rewrite IH, app_assoc.
  - apply IH.
Qed.

Lemma words_go_spaceless (w : string) : forall cur,
  spaceless w = true ->
  String.words_go (Some cur) w = [String.rev cur +:+ w].
Proof.
  induction w as [|c w IH]; intros cur Hw.
  - simpl. f_equal. unfold String.rev.
    rewrite rev_app_app. reflexivity.
  - simpl in Hw. apply andb_prop in Hw as [Hc Hw].
    simpl. destruct (Ascii.is_space c); [discriminate|].
    rewrite IH by done. f_equal. unfold String.rev. simpl.
    rewrite !rev_app_app. reflexivity.
Qed.

(** A string without white space is one word. *)
Lemma words_spaceless (w : string) :
  w <> EmptyString -> spaceless w = true -> String.words w = [w].
Proof.
  destruct w as [|c w]; [done|]. intros _ Hw.
  simpl in Hw. apply andb_prop in Hw as [Hc Hw].
  unfold String.words. simpl. destruct (Ascii.is_space c); [discriminate|].
  by rewrite words_go_spaceless.
Qed.

Lemma words_space (s t : string) :
  String.words (s +:+ String " " t) = String.words s ++ String.words t.
Proof. apply words_go_space. Qed.

(** The constructor assigns its two defaults, then the words of [args]. *)
Lemma new_unfold args :
  agent.new args
  = fold_left agent.assign (String.words args)
      (<["role" := "unknown"]> (<["name" := "unknown"]> ∅)).
Proof.
  unfold agent.new.
  change ("name=unknown role=unknown " +:+ args)
    with ("name=unknown role=unknown" +:+ String " " args).
  rewrite words_space, fold_left_app. reflexivity.
Qed.

Lemma fold_assign_is_Some ws : forall (meta : gmap string string) key,
  is_Some (meta !! key) ->
  is_Some (fold_left agent.assign ws meta !! key).
Proof.
  induction ws as [|w ws IH]; intros meta key Hkey; [exact Hkey|].
  simpl. apply IH. unfold agent.assign.
  rewrite lookup_insert. case_decide; [by eexists|exact Hkey].
Qed.

Lemma fold_assign_untouched ws : forall (meta : gmap string string) key,
  (forall w, In w ws -> agent.key_of w <> key) ->
  fold_left agent.assign ws meta !! key = meta !! key.
Proof.
  induction ws as [|w ws IH]; intros meta key Hws; [reflexivity|].
  simpl. rewrite IH by (intros w' Hw'; apply Hws; by right).
  unfold agent.assign. apply lookup_insert_ne. apply Hws. by left.
Qed.

Lemma key_of_pair k v :
  no_eq k = true -> agent.key_of (k +:+ String "=" v) = k.
Proof.
  induction k as [|c k IH]; intros Hk; [reflexivity|].
  simpl in Hk. apply andb_prop in Hk as [Hc Hk].
  rewrite app_cons. simpl. destruct (Ascii.eqb c "="); [discriminate|].
  by rewrite IH.
Qed.

Lemma value_of_pair k v :
  no_eq k = true -> agent.value_of (k +:+ String "=" v) = v.
Proof.
  intros Hk. unfold agent.value_of.
  assert (H : agent.after_eq (k +:+ String "=" v) = Some v).
  { induction k as [|c k IH]; [reflexivity|].
    simpl in Hk. apply andb_prop in Hk as [Hc Hk].
    rewrite app_cons. simpl. destruct (Ascii.eqb c "="); [discriminate|].
    by apply IH. }
  by rewrite H.
Qed.

Lemma key_of_no_eq k : no_eq k = true -> agent.key_of k = k.
Proof.
  induction k as [|c k IH]; intros Hk; [reflexivity|].
  simpl in Hk. apply andb_prop in Hk as [Hc Hk].
  simpl. destruct (Ascii.eqb c "="); [discriminate|]. by rewrite IH.
Qed.

Lemma value_of_no_eq k : no_eq k = true -> agent.value_of k = k.
Proof.
  unfold agent.value_of. intros Hk.
  assert (H : agent.after_eq k = None).
  { induction k as [|c k IH]; [reflexivity|].
    simpl in Hk. apply andb_prop in Hk as [Hc Hk].
    simpl. destruct (Ascii.eqb c "="); [discriminate|]. by apply IH. }
  by rewrite H.
Qed.

(** X1.  Whatever the arguments, the map of a constructed agent holds the
    keys [name] and [role]: [name()] and [role()] return and do not throw. *)
Theorem name_and_role_never_throw args :
  exists n r,
    name (agent.new args) = Returned n /\ role (agent.new args) = Returned r.
Proof.
  assert (H : forall key,
             is_Some ((<["role" := "unknown"]> (<["name" := "unknown"]> ∅)
                       : gmap string string) !! key) ->
             exists v, property (agent.new args) key = Returned v).
  { intros key Hkey. rewrite new_unfold. unfold property.
    destruct (fold_assign_is_Some (String.words args) _ key Hkey) as [v ->].
    by exists v. }
  destruct (H "name"%string) as [n Hn]; [by eexists|].
  destruct (H "role"%string) as [r Hr]; [by eexists|].
  by exists n, r.
Qed.

(** X2.  When no word of the arguments has the key [name], the name of
    the agent is the default, "unknown"; and the same for [role]. *)
Theorem name_and_role_default args key :
  key = "name"%string \/ key = "role"%string ->
  (forall w, In w (String.words args) -> agent.key_of w <> key) ->
  property (agent.new args) key = Returned "unknown"%string.
Proof.
  intros Hkey Hws. rewrite new_unfold. unfold property.
  rewrite fold_assign_untouched by done.
  by destruct Hkey as [-> | ->].
Qed.

Lemma name_and_role_default_witness :
  property (agent.new "init=65536,65536 alpha=0.1") "role"
  = Returned "unknown"%string.
Proof.
  apply (name_and_role_default "init=65536,65536 alpha=0.1" "role").
  - right. reflexivity.
  - vm_compute. intros w [<- | [<- | []]]; discriminate.
Defined.

(** X3.  [notify] with a message without white space does to the map
    what the same message does as the last word of the arguments of the
    constructor. *)
Theorem notify_as_last_argument args msg :
  msg <> EmptyString -> spaceless msg = true ->
  agent.notify (agent.new args) msg = agent.new (args +:+ String " " msg).
Proof.
  intros Hne Hmsg. unfold agent.notify, agent.new.
  rewrite <- app_assoc_string. rewrite words_space, fold_left_app.
  by rewrite (words_spaceless msg).
Qed.

Lemma notify_as_last_argument_witness :
  agent.notify (agent.new "name=slide") "alpha=0.5"
  = agent.new ("name=slide" +:+ String " " "alpha=0.5").
Proof.
  apply (notify_as_last_argument "name=slide" "alpha=0.5").
  - discriminate.
  - reflexivity.
Defined.

(** X4.  After [notify] with the message [key=value], where [key] holds
    no ['='], [property(key)] returns [value] and the other keys are as
    before; after [notify] with a message without ['='], the message is its
    own key and value. *)
Theorem notify_then_property meta key value msg :
  no_eq key = true -> no_eq msg = true ->
  property (agent.notify meta (key +:+ String "=" value)) key
  = Returned value /\
  (forall other, other <> key ->
     property (agent.notify meta (key +:+ String "=" value)) other
     = property meta other) /\
  property (agent.notify meta msg) msg = Returned msg.
Proof.
  intros Hkey Hmsg. unfold agent.notify, agent.assign, property.
  rewrite key_of_pair, value_of_pair, key_of_no_eq, value_of_no_eq by done.
  split; [by rewrite lookup_insert_eq|]. split.
  - intros other Hne. by rewrite lookup_insert_ne.
  - by rewrite lookup_insert_eq.
Qed.

Lemma notify_then_property_witness :
  property (agent.notify (agent.new "") ("alpha" +:+ String "=" "0.5")) "alpha"
  = Returned "0.5"%string /\
  (forall other, other <> "alpha"%string ->
     property (agent.notify (agent.new "") ("alpha" +:+ String "=" "0.5")) other
     = property (agent.new "") other) /\
  property (agent.notify (agent.new "") "verbose") "verbose"
  = Returned "verbose"%string.
Proof.
  apply (notify_then_property (agent.new "") "alpha" "0.5" "verbose");
    reflexivity.
Defined.

(** ** The tables of a new agent *)




Lemma read_weights_length {file : Type}
  (read_weight : file -> weight -> weight * file) net : forall f,
  length (read_weights file read_weight f net) = length net.
Proof.
  induction net as [|w net IH]; intros f; simpl; [reflexivity|].
  destruct (read_weight f w) as [w' f']. simpl. by rewrite IH.
Qed.

Lemma resize_length size net :
  length (resize size net) = Z.to_nat size.
Proof.
  unfold resize. rewrite length_app, length_take, length_replicate. lia.
Qed.



(** X6.  When an agent is made from arguments with a [load] option, the
    file was opened and the agent has as many tables as the count at the
    head of the file says, whatever the [init] option asked for. *)
Theorem loaded_agent_has_the_tables_of_the_file
  stod file open_in read_u32 read_weight args path a :
  agent.new args !! "load" = Some path ->
  weight_agent_new stod file open_in read_u32 read_weight args = Returned a ->
  exists f,
    open_in path = Some f /\
    length (wa_net a) = Z.to_nat (fst (read_u32 f)).
Proof.
  intros Hload. unfold weight_agent_new. rewrite Hload.
  assert (Hl : forall net0 net1,
             load_weights file open_in read_u32 read_weight path net0
             = Returned net1 ->
             exists f, open_in path = Some f /\
                       length net1 = Z.to_nat (fst (read_u32 f))).
  { intros net0 net1. unfold load_weights.
    destruct (open_in path) as [f|]; [|discriminate].
    destruct (read_u32 f) as [size f'] eqn:Hr. intros [= <-].
    exists f. split; [reflexivity|].
    by rewrite read_weights_length, resize_length, Hr. }
  destruct (agent.new args !! "init") as [info|]; cbn [bind];
    (destruct (load_weights file open_in read_u32 read_weight path _)
       as [net1| |] eqn:Hlw; cbn [bind]; [|discriminate..];
     destruct (agent.new args !! "alpha") as [value|]; cbn [bind];
     [destruct (to_numeric stod value); cbn [bind]; [|discriminate..]|];
     intros [= <-]; exact (Hl _ _ Hlw)).
Qed.

Lemma loaded_agent_has_the_tables_of_the_file_witness :
  exists f,
    Sample.two_disk !! "w.bin"%string = Some f /\
    length (wa_net Sample.two_tables) = Z.to_nat (fst (Sample.read_u32 f)).
Proof.
  apply (loaded_agent_has_the_tables_of_the_file Sample.stod Sample.file
           (fun path => Sample.two_disk !! path)
           Sample.read_u32 Sample.read_weight
           "init=16,16,16,16 load=w.bin" "w.bin" Sample.two_tables).
  - vm_compute. reflexivity.
  - vm_compute. reflexivity.
Defined.

(** ** What a hash tells *)

Lemma bit_pow2 k : cell_pos k -> bit k = 2 ^ k.
Proof.
  intros Hk. apply Z.eqb_eq.
  by refine (cells_checked (fun k => bit k =? 2 ^ k) k _ Hk).
Qed.

Lemma testbit_mask l j :
  Forall cell_pos l -> 0 <= j ->
  Z.testbit (mask l) j = existsb (Z.eqb j) l.
Proof.
  intros Hl Hj. induction Hl as [|k l Hk _ IH]; simpl.
  - apply Z.bits_0.
  - rewrite Z.lor_spec, IH, (bit_pow2 k Hk).
    rewrite Z.pow2_bits_eqb by (unfold cell_pos in Hk; lia).
    by rewrite (Z.eqb_sym k j).
Qed.

Lemma existsb_eqb_In j l : existsb (Z.eqb j) l = true <-> In j l.
Proof.
  rewrite existsb_exists. split.
  - intros (x & Hx & Heq). apply Z.eqb_eq in Heq. by subst.
  - intros Hj. exists j. split; [exact Hj|apply Z.eqb_refl].
Qed.

(** Two lists of cells have the same bits when they hold the same cells. *)
Lemma mask_eq_iff l l' :
  Forall cell_pos l -> Forall cell_pos l' ->
  mask l = mask l' <-> (forall k, In k l <-> In k l').
Proof.
  intros Hl Hl'. split.
  - intros Heq k.
    destruct (Z_lt_le_dec k 0) as [Hneg | Hnn].
    + rewrite List.Forall_forall in Hl, Hl'. split; intros Hk;
        [apply Hl in Hk|apply Hl' in Hk]; unfold cell_pos in Hk; lia.
    + rewrite <- !existsb_eqb_In, <- !testbit_mask by done. by rewrite Heq.
  - intros Hin. apply Z.bits_inj'. intros j Hj.
    rewrite !testbit_mask by done.
    apply eq_true_iff_eq. rewrite !existsb_eqb_In. apply Hin.
Qed.

Lemma mask_nil_iff l : Forall cell_pos l -> mask l = 0 <-> l = [].
Proof.
  intros Hl. split; [|by intros ->].
  destruct l as [|k l]; [done|]. intros Hm. exfalso.
  assert (Hk : cell_pos k) by (by inversion Hl).
  assert (Hbit : Z.testbit (mask (k :: l)) k = true).
  { rewrite testbit_mask by (done || unfold cell_pos in Hk; lia).
    apply existsb_eqb_In. by left. }
  rewrite Hm, Z.bits_0 in Hbit. discriminate.
Qed.

Lemma In_reals k feat : cell_pos k -> In k (reals feat) <-> In k feat.
Proof.
  intros Hk. unfold reals. rewrite List.filter_In. unfold real.
  split; [by intros [? _]|]. intros Hin. split; [exact Hin|].
  apply negb_true_iff, Z.eqb_neq. unfold cell_pos in Hk. lia.
Qed.

(** X7.  [Feature::operator==] on two features of cells and sentinels:
    they are equal when they hold the same cells, in whatever order and
    however often, and either both or none holds a sentinel, or they
    hold no cell at all. *)
Theorem feature_equality_is_equality_of_cell_sets f g :
  Forall position f -> Forall position g ->
  Feature.eqb f g = true <->
  (forall k, cell_pos k -> (In k f <-> In k g)) /\
  (with_hint f = with_hint g \/ reals f = []).
Proof.
  intros Hf Hg.
  pose proof (reals_position f Hf) as Hrf.
  pose proof (reals_position g Hg) as Hrg.
  pose proof (mask_below_16 _ Hrf) as Hmf.
  pose proof (mask_below_16 _ Hrg) as Hmg.
  assert (Hsets : mask (reals f) = mask (reals g) <->
                  forall k, cell_pos k -> (In k f <-> In k g)).
  { rewrite mask_eq_iff by done. split.
    - intros H k Hk.
      rewrite <- (In_reals k f), <- (In_reals k g) by done. apply H.
    - intros H k. destruct (decide (cell_pos k)) as [Hk|Hk].
      + rewrite (In_reals k f), (In_reals k g) by done. by apply H.
      + rewrite List.Forall_forall in Hrf, Hrg.
        split; intros Hin; [apply Hrf in Hin|apply Hrg in Hin]; done. }
  unfold Feature.eqb. rewrite Z.eqb_eq, !hash_spec. split.
  - intros Hhash.
    assert (H : mask (reals f) = mask (reals g) /\
                (with_hint f = with_hint g \/ mask (reals f) = 0))
      by (destruct (with_hint f), (with_hint g); split; auto; lia).
    destruct H as [Hm Hor]. split; [by apply Hsets|].
    destruct Hor as [Hw|H0]; [by left|right; by apply mask_nil_iff].
  - intros [Hset Hor]. apply Hsets in Hset.
    destruct Hor as [Hw|Hnil].
    + rewrite Hw, Hset. reflexivity.
    + assert (H0 : mask (reals f) = 0) by (by rewrite Hnil).
      rewrite <- Hset, H0. by destruct (with_hint f), (with_hint g).
Qed.

Lemma feature_equality_is_equality_of_cell_sets_witness :
  Feature.eqb [5; 6; 7; 9; 10; 11] [9; 10; 11; 5; 6; 7] = true <->
  (forall k, cell_pos k ->
     (In k [5; 6; 7; 9; 10; 11] <-> In k [9; 10; 11; 5; 6; 7])) /\
  (with_hint [5; 6; 7; 9; 10; 11] = with_hint [9; 10; 11; 5; 6; 7] \/
   reals [5; 6; 7; 9; 10; 11] = []).
Proof.
  apply (feature_equality_is_equality_of_cell_sets
           [5; 6; 7; 9; 10; 11] [9; 10; 11; 5; 6; 7]);
    repeat constructor; unfold position; lia.
Defined.

(** ** The index as a hexadecimal number *)

Lemma lor_nibble a x :
  0 <= a -> nibble x -> Z.lor (Z.shiftl a 4) x = 16 * a + x.
Proof.
  intros Ha Hx. unfold nibble in Hx.
  assert (Hland : Z.land (Z.shiftl a 4) x = 0).
  { apply Z.bits_inj'. intros n Hn. rewrite Z.land_spec, Z.bits_0.
    destruct (Z_lt_le_dec n 4) as [Hlow|Hhigh].
    - by rewrite Z.shiftl_spec_low.
    - replace x with (x mod 2 ^ 4) by (apply Z.mod_small; simpl; lia).
      rewrite (Z.mod_pow2_bits_high x 4 n) by lia. apply andb_false_r. }
  rewrite <- Z.lxor_lor, <- Z.add_nocarry_lxor by done.
  rewrite Z.shiftl_mul_pow2 by lia. change (2 ^ 4) with 16. lia.
Qed.

Lemma index_fold_digits b f : forall idx n,
  Forall (fun k => nibble (read b k)) f ->
  0 <= n -> n + Z.of_nat (length f) <= 15 ->
  0 <= idx < 16 ^ n ->
  fold_left (Feature.index_step b (Feature.count_empty b)) f idx
  = fold_left (fun n d => 16 * n + d) (map (read b) f) idx.
Proof.
  induction f as [|k f IH]; intros idx n Hf Hn Hlen Hidx; [reflexivity|].
  inversion Hf as [|? ? Hk Hf']; subst.
  cbn [fold_left map]. cbn [length] in Hlen.
  assert (Hstep : Feature.index_step b (Feature.count_empty b) idx k
                  = 16 * idx + read b k).
  { unfold Feature.index_step.
    assert (Hpow : 16 ^ n <= 16 ^ 14) by (apply Z.pow_le_mono_r; lia).
    rewrite wrap64_small
      by (rewrite Z.shiftl_mul_pow2 by lia;
          change (2 ^ 4) with 16; change (16 ^ 14) with (2 ^ 56) in Hpow;
          change (2 ^ 63) with (128 * 2 ^ 56); lia).
    rewrite <- (lor_nibble idx (read b k)) by (done || lia).
    unfold read. by destruct (k =? -1). }
  rewrite Hstep. apply (IH _ (n + 1)); try done; try lia.
  rewrite Z.pow_add_r by lia. change (16 ^ 1) with 16.
  unfold nibble in Hk. lia.
Qed.

Lemma digits_snoc ds d : digits (ds ++ [d]) = 16 * digits ds + d.
Proof. unfold digits. by rewrite fold_left_app. Qed.

Lemma digits_bound ds :
  Forall nibble ds -> 0 <= digits ds < 16 ^ Z.of_nat (length ds).
Proof.
  induction ds as [|d ds IH] using rev_ind; intros Hds.
  - simpl. unfold digits. simpl. lia.
  - apply Forall_app in Hds as [Hds Hd]. inversion Hd as [|? ? Hd' _]; subst.
    rewrite digits_snoc, length_app, Nat2Z.inj_add, Z.pow_add_r by lia.
    change (16 ^ Z.of_nat (length [d])) with 16.
    specialize (IH Hds). unfold nibble in Hd'. lia.
Qed.

(** Lists of digits of the same length that write the same number are
    the same. *)
Lemma digits_inj ds : forall ds',
  length ds = length ds' -> Forall nibble ds -> Forall nibble ds' ->
  digits ds = digits ds' -> ds = ds'.
Proof.
  induction ds as [|d ds IH] using rev_ind; intros ds' Hlen Hds Hds' Heq.
  - destruct ds'; [reflexivity|discriminate].
  - induction ds' as [|d' ds' _] using rev_ind.
    + rewrite length_app in Hlen. simpl in Hlen. lia.
    + rewrite !length_app in Hlen. simpl in Hlen.
      apply Forall_app in Hds as [Hds Hd], Hds' as [Hds' Hd'].
      inversion Hd as [|? ? Hn _]; inversion Hd' as [|? ? Hn' _]; subst.
      rewrite !digits_snoc in Heq. unfold nibble in Hn, Hn'.
      assert (d = d' /\ digits ds = digits ds') as [-> Hrest] by lia.
      f_equal. apply IH; try done. lia.
Qed.

Lemma index_digits b f :
  Forall (fun k => nibble (read b k)) f -> (length f <= 15)%nat ->
  Feature.index f b = digits (map (read b) f).
Proof.
  intros Hf Hlen. unfold Feature.index, digits.
  apply (index_fold_digits b f 0 0); try done; lia.
Qed.

Lemma Forall_read_map b f :
  Forall (fun k => nibble (read b k)) f -> Forall nibble (map (read b) f).
Proof.
  intros Hf. apply List.Forall_forall. intros d Hd.
  apply in_map_iff in Hd as (k & <- & Hk).
  rewrite List.Forall_forall in Hf. by apply Hf.
Qed.

(** X8.  For a feature of at most 15 positions on boards where every
    position reads a value in 0..15, the index is the hexadecimal number
    whose digits are the values read, the first position being the most
    significant; so two boards get the same index exactly when the feature
    reads the same values on them. *)
Theorem index_is_hexadecimal b b' f :
  Forall (fun k => nibble (read b k)) f ->
  Forall (fun k => nibble (read b' k)) f ->
  (length f <= 15)%nat ->
  Feature.index f b = digits (map (read b) f) /\
  (Feature.index f b = Feature.index f b' <->
   map (read b) f = map (read b') f).
Proof.
  intros Hb Hb' Hlen. split; [by apply index_digits|].
  rewrite !index_digits by done. split; [|by intros ->].
  apply digits_inj; try by apply Forall_read_map.
  by rewrite !List.length_map.
Qed.

Lemma index_is_hexadecimal_witness :
  Feature.index [5; 6; 7; 9; 10; -1] Sample.block
  = digits (map (read Sample.block) [5; 6; 7; 9; 10; -1]) /\
  (Feature.index [5; 6; 7; 9; 10; -1] Sample.block
   = Feature.index [5; 6; 7; 9; 10; -1] Sample.corner <->
   map (read Sample.block) [5; 6; 7; 9; 10; -1]
   = map (read Sample.corner) [5; 6; 7; 9; 10; -1]).
Proof.
  apply (index_is_hexadecimal Sample.block Sample.corner [5; 6; 7; 9; 10; -1]).
  - repeat constructor; vm_compute; congruence.
  - repeat constructor; vm_compute; congruence.
  - simpl. lia.
Defined.

Lemma configured_slots_length :
  forall x, In x (slots (map IsoFeature.create_iso_feature feats)) ->
            length (snd x) = 6%nat.
Proof.
  assert (H : forallb (fun x => Nat.eqb (length (snd x)) 6)
                (slots (map IsoFeature.create_iso_feature feats)) = true)
    by (vm_compute; reflexivity).
  rewrite forallb_forall in H. intros x Hx. by apply Nat.eqb_eq, H.
Qed.

(** X9.  For an agent made by the constructor and a board whose ranks
    are in 0..15, with or without tiles, every access of [get_value] and
    [update_weight] goes to one of the tables 0..3 and to an index below
    16^6 = 16777216. *)
Theorem configured_accesses_in_range
  stod file open_in read_u32 read_weight args a b i f :
  ntuple_new stod file open_in read_u32 read_weight args = Returned a ->
  (forall k, cell_pos k -> nibble (board_at b k)) ->
  In (i, f) (slots (features a)) ->
  (i < 4)%nat /\ 0 <= Feature.index f b < 16777216.
Proof.
  intros Hnew Hb Hin.
  destruct (ntuple_new_fields _ _ _ _ _ _ _ Hnew) as (Hfeat & _).
  split.
  - apply slots_in_range in Hin. by rewrite Hfeat in Hin.
  - rewrite Hfeat in Hin.
    pose proof (configured_slots_cells _ Hin) as Hcells.
    pose proof (configured_slots_length _ Hin) as Hlen.
    cbn [snd] in Hcells, Hlen.
    assert (Hread : Forall (fun k => nibble (read b k)) f).
    { eapply Forall_impl; [exact Hcells|]. intros k Hk. unfold read.
      destruct (Z.eqb_spec k (-1)); [unfold cell_pos in Hk; lia|].
      by apply Hb. }
    rewrite index_digits by (done || lia).
    pose proof (digits_bound _ (Forall_read_map b f Hread)) as Hbound.
    rewrite List.length_map, Hlen in Hbound. exact Hbound.
Qed.

Lemma configured_accesses_in_range_witness :
  (0 < 4)%nat /\
  0 <= Feature.index [15; 14; 13; 12; 11; 10] (replicate 16 0) < 16777216.
Proof.
  apply (configured_accesses_in_range Sample.stod Sample.file
           (fun path => (∅ : gmap string Sample.file) !! path)
           Sample.read_u32 Sample.read_weight Sample.args Sample.fresh
           (replicate 16 0) 0%nat [15; 14; 13; 12; 11; 10]).
  - vm_compute. reflexivity.
  - intros k Hk. apply In_cells in Hk. simpl in Hk.
    repeat (destruct Hk as [<- | Hk]; [vm_compute; split; congruence|]).
    destruct Hk.
  - vm_compute. left. reflexivity.
Defined.

(** ** The two tables as symmetries *)

(** A sequence of tables that brings every cell back to itself leaves of a
    feature its cells, in order. *)
Lemma through_identity p feat :
  p <> [] -> Forall table p ->
  forallb (fun k => apply_path p k =? k) cells = true ->
  Forall position feat ->
  through p feat = reals feat.
Proof.
  intros Hne Hp Hid Hf. rewrite through_spec by done.
  rewrite <- (map_id (reals feat)) at 2. apply map_ext_in.
  intros k Hk. apply Z.eqb_eq.
  refine (cells_checked (fun k => apply_path p k =? k) k Hid _).
  pose proof (reals_position feat Hf) as Hcells.
  rewrite List.Forall_forall in Hcells. by apply Hcells.
Qed.

(** X10.  On a feature of cells and sentinels, [left_rotate] and
    [reflection] drop the sentinels and act on the cells as a rotation by
    a quarter turn and a reflection do: four rotations, two reflections,
    and a rotation and a reflection done twice in turn, each give back the
    cells of the feature, in order. *)
Theorem rotation_and_reflection_laws feat :
  Forall position feat ->
  Nat.iter 4 IsoFeature.left_rotate feat = reals feat /\
  IsoFeature.reflection (IsoFeature.reflection feat) = reals feat /\
  IsoFeature.reflection
    (IsoFeature.left_rotate
       (IsoFeature.reflection (IsoFeature.left_rotate feat)))
  = reals feat /\
  length (IsoFeature.left_rotate feat) = length (reals feat) /\
  length (IsoFeature.reflection feat) = length (reals feat).
Proof.
  intros Hf.
  pose (R := IsoFeature._right_rotation_matching).
  pose (F := IsoFeature._reflection_matching).
  split; [|split; [|split; [|split]]].
  - change (through [R; R; R; R] feat = reals feat).
    apply through_identity; try done. subst R F.
    repeat (apply List.Forall_cons; [auto with iso|]). apply List.Forall_nil.
  - change (through [F; F] feat = reals feat).
    apply through_identity; try done. subst R F.
    repeat (apply List.Forall_cons; [auto with iso|]). apply List.Forall_nil.
  - change (through [R; F; R; F] feat = reals feat).
    apply through_identity; try done. subst R F.
    repeat (apply List.Forall_cons; [auto with iso|]). apply List.Forall_nil.
  - unfold IsoFeature.left_rotate. by rewrite remap_spec, List.length_map.
  - unfold IsoFeature.reflection. by rewrite remap_spec, List.length_map.
Qed.

Lemma rotation_and_reflection_laws_witness :
  Nat.iter 4 IsoFeature.left_rotate [6; 7; -1; 9] = reals [6; 7; -1; 9] /\
  IsoFeature.reflection (IsoFeature.reflection [6; 7; -1; 9])
  = reals [6; 7; -1; 9] /\
  IsoFeature.reflection
    (IsoFeature.left_rotate
       (IsoFeature.reflection (IsoFeature.left_rotate [6; 7; -1; 9])))
  = reals [6; 7; -1; 9] /\
  length (IsoFeature.left_rotate [6; 7; -1; 9]) = length (reals [6; 7; -1; 9]) /\
  length (IsoFeature.reflection [6; 7; -1; 9]) = length (reals [6; 7; -1; 9]).
Proof.
  apply (rotation_and_reflection_laws [6; 7; -1; 9]).
  repeat constructor; unfold position; lia.
Defined.

(** ** The hashes of an orbit *)

Lemma insert_hash_In x l y :
  In y (insert_hash x l) -> y = x \/ In y l.
Proof.
  induction l as [|z l IH]; simpl.
  - intros [<- | []]. by left.
  - destruct (z <? x); simpl.
    + intros [<- | H]; [by left|by right].
    + intros [<- | H]; [right; by left|].
      destruct (IH H) as [-> | Hin]; [by left|right; by right].
Qed.

Lemma insert_hash_nonincreasing x l :
  nonincreasing l -> nonincreasing (insert_hash x l).
Proof.
  induction l as [|z l IH]; intros Hl; simpl.
  - split; [intros y []|exact I].
  - destruct Hl as [Hz Hl]. destruct (Z.ltb_spec z x) as [Hlt|Hge]; simpl.
    + split; [|by split].
      intros y [<- | Hy]; [lia|]. specialize (Hz y Hy). lia.
    + split; [|by apply IH].
      intros y Hy. destruct (insert_hash_In _ _ _ Hy) as [-> | Hin];
        [lia|by apply Hz].
Qed.

Lemma sort_hashes_nonincreasing l : nonincreasing (sort_hashes l).
Proof.
  unfold sort_hashes.
  assert (H : forall acc, nonincreasing acc ->
                nonincreasing (fold_left (fun acc x => insert_hash x acc) l acc)).
  { induction l as [|x l IH]; intros acc Hacc; simpl; [exact Hacc|].
    by apply IH, insert_hash_nonincreasing. }
  apply H. exact I.
Qed.

Lemma unique_hashes_from_In l : forall kept y,
  In y (unique_hashes_from kept l) -> In y l.
Proof.
  induction l as [|z l IH]; intros kept y; simpl; [done|].
  destruct (kept =? z); simpl.
  - intros H. right. by apply (IH kept).
  - intros [<- | H]; [by left|right; by apply (IH z)].
Qed.

Lemma unique_hashes_from_decreasing l : forall kept,
  nonincreasing l -> (forall y, In y l -> y <= kept) ->
  decreasing (kept :: unique_hashes_from kept l).
Proof.
  induction l as [|z l IH]; intros kept Hl Hk.
  - simpl. split; [intros y []|exact I].
  - destruct Hl as [Hz Hl]. cbn [unique_hashes_from].
    destruct (Z.eqb_spec kept z) as [->|Hne].
    + apply IH; [exact Hl|exact Hz].
    + assert (Hlt : z < kept) by (specialize (Hk z (or_introl eq_refl)); lia).
      pose proof (IH z Hl Hz) as [Hbelow Hrest].
      split; [|by split].
      intros y [<- | Hy]; [exact Hlt|]. specialize (Hbelow y Hy). lia.
Qed.

Lemma unique_hashes_decreasing l :
  nonincreasing l -> decreasing (unique_hashes l).
Proof.
  destruct l as [|x l]; [done|]. intros [Hx Hl].
  by apply unique_hashes_from_decreasing.
Qed.

Lemma decreasing_NoDup l : decreasing l -> List.NoDup l.
Proof.
  induction l as [|x l IH]; intros Hl; [constructor|].
  destruct Hl as [Hx Hl]. constructor; [|by apply IH].
  intros Hin. specialize (Hx x Hin). lia.
Qed.

(** The hashes of the orbit are those of the nine entries, sorted, each
    kept once, with the sign the sentinel gives them. *)
Lemma orbit_hashes_spec feat :
  Forall position feat ->
  map Feature.hash (IsoFeature.create_iso_feature feat)
  = map (signed feat)
        (unique_hashes (sort_hashes (orbit_hashes (mask (reals feat))))).
Proof.
  intros Hf. rewrite create_iso_feature_unfold, map_map.
  rewrite <- variant_hashes by done.
  change Feature.hash with (fun x => fst (make_entry x)) at 2.
  rewrite <- (map_map make_entry fst), <- sort_fst.
  rewrite <- unique_fst by (apply sort_Forall, make_entry_consistent).
  rewrite map_map. apply map_ext_in.
  intros e He. apply unique_sort_In in He.
  apply in_map_iff in He as (v & <- & Hv).
  unfold variants in Hv. apply in_map_iff in Hv as (p & <- & Hp).
  pose proof paths_tables as Hall. rewrite List.Forall_forall in Hall.
  destruct (Hall p Hp) as [Hne Htab].
  pose proof (through_cells p feat Hne Htab) as Hcells.
  unfold signed, make_entry. cbn [fst snd].
  destruct (with_hint feat).
  - by rewrite hash_hint, hash_cells.
  - reflexivity.
Qed.

(** X11.  In the orbit [create_iso_feature] gives for a feature of cells
    and sentinels no two members have the same hash: up to the sign the
    sentinel gives them, the hashes come in decreasing order. *)
Theorem orbit_hashes_differ feat :
  Forall position feat ->
  List.NoDup (map Feature.hash (IsoFeature.create_iso_feature feat)) /\
  decreasing (map (fun v => signed feat (Feature.hash v))
                  (IsoFeature.create_iso_feature feat)).
Proof.
  intros Hf.
  pose proof (unique_hashes_decreasing _
                (sort_hashes_nonincreasing
                   (orbit_hashes (mask (reals feat))))) as Hdec.
  assert (Hsigned : map (fun v => signed feat (Feature.hash v))
                        (IsoFeature.create_iso_feature feat)
                    = unique_hashes
                        (sort_hashes (orbit_hashes (mask (reals feat))))).
  { rewrite <- (map_map Feature.hash (signed feat)), orbit_hashes_spec by done.
    rewrite map_map. rewrite <- (map_id (unique_hashes _)) at 2.
    apply map_ext. intros h. unfold signed.
    destruct (with_hint feat); lia. }
  split; [|by rewrite Hsigned].
  rewrite orbit_hashes_spec by done.
  apply NoDup_map_NoDup_ForallPairs; [|by apply decreasing_NoDup].
  intros x y _ _. unfold signed. destruct (with_hint feat); lia.
Qed.

Lemma orbit_hashes_differ_witness :
  List.NoDup
    (map Feature.hash (IsoFeature.create_iso_feature [5; 6; 7; 9; 10; 11])) /\
  decreasing (map (fun v => signed [5; 6; 7; 9; 10; 11] (Feature.hash v))
                  (IsoFeature.create_iso_feature [5; 6; 7; 9; 10; 11])).
Proof.
  apply (orbit_hashes_differ [5; 6; 7; 9; 10; 11]).
  repeat constructor; unfold position; lia.
Defined.

(** ** More on the value and the moves of the learning agent *)

Lemma address_transform sigma b x :
  (forall k, cell_pos k -> cell_pos (sigma k)) ->
  Forall cell_pos (snd x) ->
  address (transform sigma b) x = address b (slot_through sigma x).
Proof.
  intros Hsigma Hx. unfold address, slot_through. cbn [fst snd].
  by rewrite index_transform.
Qed.

Lemma outside_block_In x l : In x (outside_block l) -> In x l.
Proof. unfold outside_block. intros H. by apply List.filter_In in H as [? _]. Qed.

(** X12.  For an agent made by the constructor, with a table for every
    base feature, and each of the sequences of rotations and reflections
    of [create_iso_feature], the entries [get_value] reads for the base
    features other than the third on the board read through the sequence
    are, but for their order, the entries it reads on the board itself.
    (The sums [get_value] takes of them, in [double] and in the order of
    its loops, are another matter.) *)
Theorem symmetries_permute_the_entries_read
  stod file open_in read_u32 read_weight args a p b :
  ntuple_new stod file open_in read_u32 read_weight args = Returned a ->
  (length (features a) <= length (net a))%nat ->
  In p paths ->
  Permutation
    (map (address (transform (apply_path p) b))
         (outside_block (slots (features a))))
    (map (address b) (outside_block (slots (features a)))).
Proof.
  intros Hnew _ Hp.
  destruct (ntuple_new_fields _ _ _ _ _ _ _ Hnew) as (-> & _).
  assert (Hsigma : forall k, cell_pos k -> cell_pos (apply_path p k)).
  { intros k _. pose proof paths_tables as Hall.
    rewrite List.Forall_forall in Hall. destruct (Hall p Hp).
    by apply apply_path_cell. }
  rewrite (map_ext_in _ (fun x => address b (slot_through (apply_path p) x))).
  - rewrite <- (map_map (slot_through (apply_path p)) (address b)).
    apply Permutation_map. by apply configured_slots_permuted.
  - intros x Hx. apply address_transform; [exact Hsigma|].
    apply configured_slots_cells. by apply outside_block_In.
Qed.

Lemma symmetries_permute_the_entries_read_witness :
  Permutation
    (map (address (transform (apply_path Sample.flip_path) Sample.block))
         (outside_block (slots (features Sample.fresh))))
    (map (address Sample.block) (outside_block (slots (features Sample.fresh)))).
Proof.
  apply (symmetries_permute_the_entries_read Sample.stod Sample.file
           (fun path => (∅ : gmap string Sample.file) !! path)
           Sample.read_u32 Sample.read_weight Sample.args Sample.fresh
           Sample.flip_path Sample.block).
  - vm_compute. reflexivity.
  - vm_compute. lia.
  - vm_compute. auto 10.
Defined.

(** X13.  For an agent with a table for every base feature: when the
    moves are 0, 1, 2, 3 and some legal move has an estimate above -1,
    [take_action] returns the first of the legal moves of the largest
    estimate and pushes the board with the reward of that move. *)
Theorem take_action_returns_first_best slide a before :
  (length (features a) <= length (net a))%nat ->
  op_code a = [0; 1; 2; 3] ->
  (exists op, In op (op_code a) /\ legal slide before op /\
              double_ltb (double_of_int (-1)) (estimate slide a before op)
              = true) ->
  exists op,
    first_best slide a before (op_code a) op /\
    take_action slide a before
    = (action_slide op,
       set_history a ((before, reward_of slide before op) :: history a)).
Proof.
  intros _ Hops. apply take_action_best. rewrite Hops.
  repeat constructor; discriminate.
Qed.

Lemma take_action_returns_first_best_witness :
  exists op,
    first_best Sample.slide Sample.fresh Sample.corner
               (op_code Sample.fresh) op /\
    take_action Sample.slide Sample.fresh Sample.corner
    = (action_slide op,
       set_history Sample.fresh
         ((Sample.corner, reward_of Sample.slide Sample.corner op)
            :: history Sample.fresh)).
Proof.
  apply (take_action_returns_first_best Sample.slide Sample.fresh
                                        Sample.corner).
  - vm_compute. lia.
  - reflexivity.
  - exists 1. split; [vm_compute; auto|].
    split; [vm_compute; discriminate|vm_compute; reflexivity].
Defined.

(** X14.  For an agent with a table for every base feature, whatever
    the weights: a move [take_action] returns is one of the moves of
    [op_code] and is legal, and the entry pushed holds its reward; with the
    null action the entry holds the reward 0; the weights and the learning
    rate are never touched. *)
Theorem take_action_returns_legal_moves_only slide a before :
  (length (features a) <= length (net a))%nat ->
  (forall op,
      fst (take_action slide a before) = action_slide op ->
      In op (op_code a) /\ legal slide before op /\
      history (snd (take_action slide a before))
      = (before, reward_of slide before op) :: history a) /\
  (fst (take_action slide a before) = action_null ->
   history (snd (take_action slide a before)) = (before, 0) :: history a) /\
  net (snd (take_action slide a before)) = net a /\
  alpha (snd (take_action slide a before)) = alpha a.
Proof.
  intros _. unfold take_action.
  destruct (choose_spec slide a before (op_code a) (double_of_int (-1)) (-1) 0)
    as [[-> _] | (o & (l1 & l2 & Heq & Hok & _) & _ & ->)].
  - simpl. repeat split; try done.
  - destruct (Z.eqb_spec o (-1)) as [->|Hne]; simpl.
    + repeat split; try done.
    + repeat split; try done.
      * injection H as <-. rewrite Heq. apply in_or_app. right. by left.
      * by injection H as <-.
      * by injection H as <-.
Qed.

Lemma take_action_returns_legal_moves_only_witness :
  (forall op,
      fst (take_action Sample.slide Sample.taught Sample.corner)
      = action_slide op ->
      In op (op_code Sample.taught) /\ legal Sample.slide Sample.corner op /\
      history (snd (take_action Sample.slide Sample.taught Sample.corner))
      = (Sample.corner, reward_of Sample.slide Sample.corner op)
          :: history Sample.taught) /\
  (fst (take_action Sample.slide Sample.taught Sample.corner) = action_null ->
   history (snd (take_action Sample.slide Sample.taught Sample.corner))
   = (Sample.corner, 0) :: history Sample.taught) /\
  net (snd (take_action Sample.slide Sample.taught Sample.corner))
  = net Sample.taught /\
  alpha (snd (take_action Sample.slide Sample.taught Sample.corner))
  = alpha Sample.taught.
Proof.
  apply (take_action_returns_legal_moves_only Sample.slide Sample.taught
                                              Sample.corner).
  vm_compute. lia.
Defined.

(** *** What a step does to the value *)

(** The loops of [get_value] on entries that are read through [g]. *)
Lemma fold_value_ext (r r' : nat -> Z -> double) (b : board)
  (l : list (nat * list Z)) :
  (forall x, In x l ->
             r (fst x) (Feature.index (snd x) b)
             = r' (fst x) (Feature.index (snd x) b)) ->
  forall acc,
    fold_left (fun sum '(i, f) => double_add sum (r i (Feature.index f b)))
              l acc
    = fold_left
        (fun sum x => double_add sum (r' (fst x) (Feature.index (snd x) b)))
        l acc.
Proof.
  induction l as [|[i f] l IH]; intros Hext acc; [reflexivity|].
  cbn [fold_left fst snd].
  pose proof (Hext (i, f) (or_introl eq_refl)) as Hx. cbn [fst snd] in Hx.
  rewrite Hx.
  apply IH. intros y Hy. apply Hext. by right.
Qed.

Lemma value_through_id a b : value_through (fun w => w) a b = get_value a b.
Proof.
  rewrite get_value_slots. unfold value_through. symmetry.
  apply (fold_value_ext (fun i idx => double_of_float (net_at (net a) i idx))
                        (fun i idx => double_of_float (net_at (net a) i idx))).
  reflexivity.
Qed.

Lemma overlap_zero features s s' x :
  overlap features s s' = 0%nat -> In x (slots features) ->
  hits features s (fst x) (Feature.index (snd x) s') = 0%nat.
Proof.
  unfold overlap. induction (slots features) as [|y l IH]; [done|].
  cbn [fold_right]. intros Hsum [<- | Hx]; [lia|]. apply IH; [lia|exact Hx].
Qed.

Lemma filter_address_once (s : board) (l : list (nat * list Z)) x :
  List.NoDup (map (address s) l) -> In x l ->
  length (List.filter
            (fun '(j, f) => Nat.eqb j (fst x)
                            && (Feature.index f s =? Feature.index (snd x) s))
            l) = 1%nat.
Proof.
  induction l as [|y l IH]; intros Hnd Hx; [destruct Hx|].
  cbn [map] in Hnd. inversion Hnd as [|? ? Hnotin Hnd']; subst.
  assert (Hnone : forall z, In z l -> address s z <> address s y).
  { intros z Hz Heq. apply Hnotin. rewrite <- Heq. by apply in_map. }
  destruct y as [j f]. cbn [List.filter].
  destruct Hx as [<- | Hx]; cbn [fst snd].
  - rewrite Nat.eqb_refl, Z.eqb_refl. cbn [andb length]. f_equal.
    match goal with |- length ?fl = _ => destruct fl as [|[j' f'] rest] eqn:Hfil end;
      [reflexivity|exfalso].
    assert (Hin : In (j', f') ((j', f') :: rest)) by (by left).
    rewrite <- Hfil in Hin. apply List.filter_In in Hin as [Hin Hmatch].
    apply andb_prop in Hmatch as [Hj Hidx].
    apply Nat.eqb_eq in Hj. apply Z.eqb_eq in Hidx.
    apply (Hnone (j', f') Hin). unfold address. cbn [fst snd]. congruence.
  - destruct (Nat.eqb j (fst x) && (Feature.index f s =? Feature.index (snd x) s))
      eqn:Hmatch.
    + exfalso. apply andb_prop in Hmatch as [Hj Hidx].
      apply Nat.eqb_eq in Hj. apply Z.eqb_eq in Hidx.
      apply (Hnone x Hx). unfold address. cbn [fst snd].
      destruct x; cbn [fst snd] in *. congruence.
    + by apply IH.
Qed.

(** X15.  For an agent with a table for every base feature,
    [update_weight] on the board [s] leaves the value of every board [s']
    as it was when no access of [s'] goes to an entry that an access of [s]
    goes to, whatever the target and the step. *)
Theorem update_weight_leaves_other_entries a target s s' :
  (length (features a) <= length (net a))%nat ->
  overlap (features a) s s' = 0%nat ->
  get_value (update_weight a target s) s' = get_value a s'.
Proof.
  intros Hlen Hover. rewrite <- (value_through_id a s'), get_value_slots.
  unfold value_through. change (features (update_weight a target s))
    with (features a).
  apply (fold_value_ext
           (fun i idx =>
              double_of_float (net_at (net (update_weight a target s)) i idx))
           (fun i idx => double_of_float (net_at (net a) i idx))).
  intros x Hx. rewrite update_weight_entries by exact Hlen.
  by rewrite (overlap_zero _ _ _ x Hover Hx).
Qed.

Lemma update_weight_leaves_other_entries_witness :
  get_value (update_weight Sample.taught (double_of_int 5) Sample.block)
            Sample.corner
  = get_value Sample.taught Sample.corner.
Proof.
  apply (update_weight_leaves_other_entries Sample.taught (double_of_int 5)
           Sample.block Sample.corner).
  - vm_compute. lia.
  - vm_compute. reflexivity.
Defined.

(** The same call does change the value of its own board: from 28 to a
    number below 26. *)
Example update_weight_changes_its_board :
  get_value Sample.taught Sample.block = double_of_int 28 /\
  double_ltb
    (get_value (update_weight Sample.taught (double_of_int 5) Sample.block)
               Sample.block)
    (double_of_int 26) = true.
Proof. split; vm_compute; reflexivity. Qed.

(** X16.  For an agent with a table for every base feature, when no two
    accesses of the board [s] go to the same entry, the value of [s] after
    [update_weight] is the sum, in [double] and in the order of the loops
    of [get_value], of the entries the board addresses, each with the step
    added once and stored as a [float]. *)
Theorem update_weight_steps_each_entry_once a target s :
  (length (features a) <= length (net a))%nat ->
  List.NoDup (map (address s) (slots (features a))) ->
  get_value (update_weight a target s) s
  = value_through (step (delta a target s)) a s.
Proof.
  intros Hlen Hnd. rewrite get_value_slots. unfold value_through.
  change (features (update_weight a target s)) with (features a).
  apply (fold_value_ext
           (fun i idx =>
              double_of_float (net_at (net (update_weight a target s)) i idx))
           (fun i idx =>
              double_of_float (step (delta a target s) (net_at (net a) i idx)))).
  intros x Hx. rewrite update_weight_entries by exact Hlen.
  unfold hits. by rewrite (filter_address_once s _ x Hnd Hx).
Qed.

Lemma update_weight_steps_each_entry_once_witness :
  get_value (update_weight (set_net Sample.fresh Sample.mixed_net)
                           (double_of_int 5) Sample.ranks)
            Sample.ranks
  = value_through
      (step (delta (set_net Sample.fresh Sample.mixed_net) (double_of_int 5)
                   Sample.ranks))
      (set_net Sample.fresh Sample.mixed_net) Sample.ranks.
Proof.
  apply (update_weight_steps_each_entry_once
           (set_net Sample.fresh Sample.mixed_net) (double_of_int 5)
           Sample.ranks).
  - vm_compute. lia.
  - apply NoDup_ListNoDup. apply (bool_decide_unpack _). vm_compute. exact I.
Defined.

(** ** The sliders without weights *)

Section SliderFacts.

Variable slide : board -> Z -> board * Z.
Variable before : board.

Lemma first_legal_spec opcode :
  (first_legal slide before opcode = action_null /\
   forall op, In op opcode -> reward_of slide before op = -1)
  \/
  (exists op,
      first_legal slide before opcode = action_slide op /\
      In op opcode /\ legal slide before op).
Proof.
  induction opcode as [|op rest IH]; simpl.
  - left. split; [reflexivity|]. intros op [].
  - fold (reward_of slide before op).
    destruct (Z.eqb_spec (reward_of slide before op) (-1)) as [Hill|Hleg];
      simpl.
    + destruct IH as [[Hnull Hall] | (o & Ho & Hin & Hok)].
      * left. split; [exact Hnull|]. intros o [<- | Ho]; [exact Hill|auto].
      * right. exists o. auto.
    + right. exists op. auto.
Qed.

Lemma greedy_step_spec m b op :
  greedy_step slide before (m, b) op
  = if m <? reward_of slide before op
    then (reward_of slide before op, op) else (m, b).
Proof. reflexivity. Qed.

Lemma ungreedy_step_spec m b op :
  ungreedy_step slide before (m, b) op
  = if (reward_of slide before op <? m) && (0 <=? reward_of slide before op)
    then (reward_of slide before op, op) else (m, b).
Proof. reflexivity. Qed.

Lemma greedy_fold_spec ops : forall m b,
  let st := fold_left (greedy_step slide before) ops (m, b) in
  (st = (m, b) /\ forall op, In op ops -> reward_of slide before op <= m)
  \/
  (exists op,
      first_largest (reward_of slide before) ops op /\
      m < reward_of slide before op /\
      st = (reward_of slide before op, op)).
Proof.
  induction ops as [|op ops IH]; intros m b; cbv zeta.
  - left. split; [reflexivity|]. intros op [].
  - cbn [fold_left]. rewrite greedy_step_spec.
    destruct (Z.ltb_spec m (reward_of slide before op)) as [Hlt|Hge].
    + destruct (IH (reward_of slide before op) op)
        as [[Hst Hall] | (o & (l1 & l2 & -> & H1 & H2) & Hgt & Hst)].
      * right. exists op. split; [|by split].
        exists [], ops. repeat split; try done; intros o [].
      * right. exists o. split; [|split; [lia|exact Hst]].
        exists (op :: l1), l2. repeat split; try done.
        intros o' [<- | Ho']; [exact Hgt|by apply H1].
    + destruct (IH m b)
        as [[Hst Hall] | (o & (l1 & l2 & -> & H1 & H2) & Hgt & Hst)].
      * left. split; [exact Hst|]. intros o [<- | Ho]; [exact Hge|auto].
      * right. exists o. split; [|by split].
        exists (op :: l1), l2. repeat split; try done.
        intros o' [<- | Ho']; [lia|by apply H1].
Qed.

Lemma ungreedy_fold_spec ops : forall m b,
  let st := fold_left (ungreedy_step slide before) ops (m, b) in
  (st = (m, b) /\
   forall op, In op ops ->
              reward_of slide before op < 0 \/ m <= reward_of slide before op)
  \/
  (exists op,
      first_smallest (reward_of slide before) ops op /\
      0 <= reward_of slide before op < m /\
      st = (reward_of slide before op, op)).
Proof.
  induction ops as [|op ops IH]; intros m b; cbv zeta.
  - left. split; [reflexivity|]. intros op [].
  - cbn [fold_left]. rewrite ungreedy_step_spec.
    destruct (Z.ltb_spec (reward_of slide before op) m) as [Hlt|Hge];
      destruct (Z.leb_spec 0 (reward_of slide before op)) as [Hnn|Hneg];
      cbn [andb].
    + destruct (IH (reward_of slide before op) op)
        as [[Hst Hall] | (o & (l1 & l2 & -> & H1 & H2) & Hrange & Hst)].
      * right. exists op. split; [|by split].
        exists [], ops. split; [reflexivity|]. split; [intros o []|].
        intros o Ho Hnno. destruct (Hall o Ho); lia.
      * right. exists o. split; [|split; [lia|exact Hst]].
        exists (op :: l1), l2. repeat split; try done.
        intros o' [<- | Ho'] Hnno; [lia|by apply H1].
    + destruct (IH m b)
        as [[Hst Hall] | (o & (l1 & l2 & -> & H1 & H2) & Hrange & Hst)].
      * left. split; [exact Hst|]. intros o [<- | Ho]; [lia|auto].
      * right. exists o. split; [|by split].
        exists (op :: l1), l2. repeat split; try done.
        intros o' [<- | Ho'] Hnno; [lia|by apply H1].
    + destruct (IH m b)
        as [[Hst Hall] | (o & (l1 & l2 & -> & H1 & H2) & Hrange & Hst)].
      * left. split; [exact Hst|]. intros o [<- | Ho]; [lia|auto].
      * right. exists o. split; [|by split].
        exists (op :: l1), l2. repeat split; try done.
        intros o' [<- | Ho'] Hnno; [lia|by apply H1].
    + destruct (IH m b)
        as [[Hst Hall] | (o & (l1 & l2 & -> & H1 & H2) & Hrange & Hst)].
      * left. split; [exact Hst|]. intros o [<- | Ho]; [lia|auto].
      * right. exists o. split; [|by split].
        exists (op :: l1), l2. repeat split; try done.
        intros o' [<- | Ho'] Hnno; [lia|by apply H1].
Qed.

(** X18.  [greedy_slider::take_action] returns the first of the moves 0,
    1, 2, 3 with the largest reward when that reward is positive; when no
    reward is positive, legal moves of reward 0 included, it returns
    [action::slide(-1)], not the null action. *)
Theorem greedy_slider_needs_a_positive_reward :
  (greedy_slider_take_action slide before = action_slide (-1) /\
   forall op, In op [0; 1; 2; 3] -> reward_of slide before op <= 0)
  \/
  (exists op,
      greedy_slider_take_action slide before = action_slide op /\
      first_largest (reward_of slide before) [0; 1; 2; 3] op /\
      0 < reward_of slide before op).
Proof.
  unfold greedy_slider_take_action, greedy_choice.
  destruct (greedy_fold_spec [0; 1; 2; 3] 0 (-1))
    as [[-> Hall] | (op & Hop & Hgt & ->)].
  - left. by split.
  - right. exists op. by repeat split.
Qed.

(** X19.  [ungreedy_slider::take_action] returns the first of the moves
    0, 1, 2, 3 with the smallest reward among the legal ones, provided that
    reward is below [INT16_MAX]; when every move is illegal or has a reward
    of [INT16_MAX] or more, it returns [action::slide(-1)]. *)
Theorem ungreedy_slider_takes_the_smallest_reward :
  (ungreedy_slider_take_action slide before = action_slide (-1) /\
   forall op, In op [0; 1; 2; 3] ->
              reward_of slide before op < 0 \/
              INT16_MAX <= reward_of slide before op)
  \/
  (exists op,
      ungreedy_slider_take_action slide before = action_slide op /\
      first_smallest (reward_of slide before) [0; 1; 2; 3] op /\
      0 <= reward_of slide before op < INT16_MAX).
Proof.
  unfold ungreedy_slider_take_action, ungreedy_choice.
  destruct (ungreedy_fold_spec [0; 1; 2; 3] INT16_MAX (-1))
    as [[-> Hall] | (op & Hop & Hrange & ->)].
  - left. by split.
  - right. exists op. split; [reflexivity|]. split; [exact Hop|exact Hrange].
Qed.

End SliderFacts.

(** X17.  With a shuffle that permutes the array, [random_slider] keeps
    [opcode] a permutation of 0, 1, 2, 3; it returns the null action
    exactly when none of the four moves is legal, and a move it returns is
    one of the four and is legal. *)
Theorem random_slider_returns_a_legal_move
  slide (engine : Type) (shuffle : list Z -> engine -> list Z * engine)
  opcode e before :
  (forall l e0, Permutation (fst (shuffle l e0)) l) ->
  Permutation opcode [0; 1; 2; 3] ->
  Permutation
    (fst (snd (random_slider_take_action slide engine shuffle (opcode, e) before)))
    [0; 1; 2; 3] /\
  (fst (random_slider_take_action slide engine shuffle (opcode, e) before)
   = action_null <->
   forall op, In op [0; 1; 2; 3] -> reward_of slide before op = -1) /\
  (forall op,
      fst (random_slider_take_action slide engine shuffle (opcode, e) before)
      = action_slide op ->
      In op [0; 1; 2; 3] /\ legal slide before op).
Proof.
  intros Hshuffle Hperm. unfold random_slider_take_action. cbn [fst snd].
  assert (Hp : Permutation (fst (shuffle opcode e)) [0; 1; 2; 3])
    by (etransitivity; [apply Hshuffle|exact Hperm]).
  split; [exact Hp|].
  destruct (first_legal_spec slide before (fst (shuffle opcode e)))
    as [[-> Hall] | (o & -> & Hin & Hok)].
  - split; [|intros op [=]]. split; [|reflexivity].
    intros _ op Hop. apply Hall.
    apply (Permutation_in _ (Permutation_sym Hp) Hop).
  - split.
    + split; [discriminate|]. intros Hall. exfalso. apply Hok, Hall.
      apply (Permutation_in _ Hp Hin).
    + intros op [= <-]. split; [|exact Hok].
      apply (Permutation_in _ Hp Hin).
Qed.

Lemma random_slider_returns_a_legal_move_witness :
  Permutation
    (fst (snd (random_slider_take_action Sample.slide unit Sample.turn
                 ([0; 1; 2; 3], tt) Sample.corner)))
    [0; 1; 2; 3] /\
  (fst (random_slider_take_action Sample.slide unit Sample.turn
          ([0; 1; 2; 3], tt) Sample.corner)
   = action_null <->
   forall op, In op [0; 1; 2; 3] -> reward_of Sample.slide Sample.corner op = -1) /\
  (forall op,
      fst (random_slider_take_action Sample.slide unit Sample.turn
             ([0; 1; 2; 3], tt) Sample.corner)
      = action_slide op ->
      In op [0; 1; 2; 3] /\ legal Sample.slide Sample.corner op).
Proof.
  apply (random_slider_returns_a_legal_move Sample.slide unit Sample.turn
           [0; 1; 2; 3] tt Sample.corner).
  - intros l e0. simpl. symmetry. apply Permutation_rev.
  - reflexivity.
Defined.

(** X20.  When [slide] answers -1 or a reward that is not negative,
    [MR_greedy_slider::take_action] returns the null action exactly when
    none of the four moves is legal.  A move it returns is legal; it is 1
    only when move 1 earns more than move 2, and 2 only when move 2 earns
    at least as much as move 1; it is 0 or 3 only when neither 1 nor 2 is
    legal, and then the one that earns more, 0 when both earn the same. *)
Theorem MR_greedy_slider_moves_0_and_3_as_last_resort slide before :
  (forall op, In op [0; 1; 2; 3] -> -1 <= reward_of slide before op) ->
  (MR_greedy_slider_take_action slide before = action_null <->
   forall op, In op [0; 1; 2; 3] -> reward_of slide before op = -1) /\
  (forall op,
      MR_greedy_slider_take_action slide before = action_slide op ->
      In op [0; 1; 2; 3] /\ legal slide before op /\
      (op = 1 -> reward_of slide before 2 < reward_of slide before 1) /\
      (op = 2 -> reward_of slide before 1 <= reward_of slide before 2) /\
      (op = 0 -> reward_of slide before 1 = -1 /\
                 reward_of slide before 2 = -1 /\
                 reward_of slide before 3 <= reward_of slide before 0) /\
      (op = 3 -> reward_of slide before 1 = -1 /\
                 reward_of slide before 2 = -1 /\
                 reward_of slide before 0 < reward_of slide before 3)).
Proof.
  intros Hr.
  assert (H0 := Hr 0 ltac:(simpl; tauto)).
  assert (H1 := Hr 1 ltac:(simpl; tauto)).
  assert (H2 := Hr 2 ltac:(simpl; tauto)).
  assert (H3 := Hr 3 ltac:(simpl; tauto)).
  clear Hr.
  unfold MR_greedy_slider_take_action, MR_greedy_step, legal.
  cbn [fold_left]. unfold reward_of in *.
  set (r0 := snd (slide before 0)) in *.
  set (r1 := snd (slide before 1)) in *.
  set (r2 := snd (slide before 2)) in *.
  set (r3 := snd (slide before 3)) in *.
  assert (Hall : forall P : Z -> Prop,
             (forall op, In op [0; 1; 2; 3] -> P op)
             <-> P 0 /\ P 1 /\ P 2 /\ P 3).
  { intros P. split.
    - intros H. repeat split; apply H; simpl; tauto.
    - intros (?&?&?&?) op [<-|[<-|[<-|[<-|[]]]]]; assumption. }
  rewrite (Hall (fun op => snd (slide before op) = -1)).
  fold r0 r1 r2 r3. clear Hall.
  destruct (Z.leb_spec 0 r1) as [Hp1|Hn1]; cbn [snd fst].
  - destruct (Z.leb_spec r1 r2) as [Hp2|Hn2]; cbn [snd Z.eqb];
      (split; [split; [discriminate|lia]|]);
      intros op [= <-]; simpl; fold r0 r1 r2 r3; repeat split; try lia;
        tauto.
  - destruct (Z.leb_spec 0 r2) as [Hp2|Hn2]; cbn [snd Z.eqb].
    + (split; [split; [discriminate|lia]|]);
      intros op [= <-]; simpl; fold r0 r1 r2 r3; repeat split; try lia;
        tauto.
    + destruct (Z.eqb_spec r0 (-1)) as [E0|E0];
        destruct (Z.eqb_spec r3 (-1)) as [E3|E3]; cbn [andb];
        [ split; [split; [lia|reflexivity]|discriminate] | | | ].
      * (split; [split; [discriminate|lia]|]);
        intros op [= <-]; simpl; fold r0 r1 r2 r3; repeat split; try lia;
          tauto.
      * (split; [split; [discriminate|lia]|]);
        intros op [= <-]; simpl; fold r0 r1 r2 r3; repeat split; try lia;
          tauto.
      * destruct (Z.ltb_spec r0 r3) as [Hlt|Hge];
        (split; [split; [discriminate|lia]|]);
        intros op [= <-]; simpl; fold r0 r1 r2 r3; repeat split; try lia;
          tauto.
Qed.

Lemma MR_greedy_slider_moves_0_and_3_as_last_resort_witness :
  (MR_greedy_slider_take_action Sample.slide Sample.corner = action_null <->
   forall op, In op [0; 1; 2; 3] ->
              reward_of Sample.slide Sample.corner op = -1) /\
  (forall op,
      MR_greedy_slider_take_action Sample.slide Sample.corner
      = action_slide op ->
      In op [0; 1; 2; 3] /\ legal Sample.slide Sample.corner op /\
      (op = 1 -> reward_of Sample.slide Sample.corner 2
                 < reward_of Sample.slide Sample.corner 1) /\
      (op = 2 -> reward_of Sample.slide Sample.corner 1
                 <= reward_of Sample.slide Sample.corner 2) /\
      (op = 0 -> reward_of Sample.slide Sample.corner 1 = -1 /\
                 reward_of Sample.slide Sample.corner 2 = -1 /\
                 reward_of Sample.slide Sample.corner 3
                 <= reward_of Sample.slide Sample.corner 0) /\
      (op = 3 -> reward_of Sample.slide Sample.corner 1 = -1 /\
                 reward_of Sample.slide Sample.corner 2 = -1 /\
                 reward_of Sample.slide Sample.corner 0
                 < reward_of Sample.slide Sample.corner 3)).
Proof.
  apply (MR_greedy_slider_moves_0_and_3_as_last_resort
           Sample.slide Sample.corner).
  intros op [<-|[<-|[<-|[<-|[]]]]]; vm_compute; discriminate.
Defined.

(** X21.  An [alternating_greedy_slider] answers a sequence of boards in
    turn as a [greedy_slider] and as an [ungreedy_slider] would, the first
    board as a [greedy_slider]; after the sequence the member
    [alternating] holds whether the number of boards was odd. *)
Theorem alternating_slider_starts_greedy slide boards :
  alternating_answers slide false boards
  = imap (fun k b => if Nat.even k
                     then greedy_slider_take_action slide b
                     else ungreedy_slider_take_action slide b) boards /\
  fold_left (fun alternating b =>
               snd (alternating_take_action slide alternating b))
            boards false
  = Nat.odd (length boards).
Proof.
  assert (Hgen : forall a,
    alternating_answers slide a boards
    = imap (fun k b => if xorb a (Nat.even k)
                       then greedy_slider_take_action slide b
                       else ungreedy_slider_take_action slide b) boards /\
    fold_left (fun alternating b =>
                 snd (alternating_take_action slide alternating b))
              boards a
    = xorb a (Nat.odd (length boards))).
  { induction boards as [|b rest IH]; intros a.
    - split; [reflexivity|]. by destruct a.
    - destruct (IH (negb a)) as [Ha Hf].
      cbn [alternating_answers fold_left alternating_take_action snd length]
        in Hf |- *.
      rewrite Ha, Hf. split.
      + rewrite imap_cons. f_equal; try (by destruct a).
        apply imap_ext. intros k x _. cbn [compose].
        rewrite Nat.even_succ, <- Nat.negb_even.
        by destruct a, (Nat.even k).
      + rewrite Nat.odd_succ, <- Nat.negb_odd.
        by destruct a, (Nat.odd (length rest)). }
  destruct (Hgen false) as [-> ->]. split; [|reflexivity].
  apply imap_ext. intros k x _. reflexivity.
Qed.

(** ** Saving and loading *)

Section SaveThenLoad.

Variable file : Type.
Variable read_u32 : file -> Z * file.
Variable read_weight : file -> weight -> weight * file.
Variable open_out : string -> option file.
Variable write_u32 : file -> Z -> file.
Variable write_weight : file -> weight -> file.

(** What a reader finds in a file, in order: counts and tables. *)
Variable unread : file -> list (Z + weight).

Hypothesis write_u32_appends : forall f n,
  0 <= n < 2 ^ 32 -> unread (write_u32 f n) = unread f ++ [inl n].
Hypothesis write_weight_appends : forall f w,
  unread (write_weight f w) = unread f ++ [inr w].
Hypothesis read_u32_takes : forall f n rest,
  unread f = inl n :: rest ->
  fst (read_u32 f) = n /\ unread (snd (read_u32 f)) = rest.
Hypothesis read_weight_takes : forall f w0 w rest,
  unread f = inr w :: rest ->
  fst (read_weight f w0) = w /\ unread (snd (read_weight f w0)) = rest.

Lemma unread_written net : forall f,
  unread (fold_left write_weight net f) = unread f ++ map inr net.
Proof.
  induction net as [|w net IH]; intros f; cbn [fold_left map].
  - by rewrite app_nil_r.
  - by rewrite IH, write_weight_appends, <- app_assoc.
Qed.

Lemma read_weights_written net : forall f net0 rest,
  unread f = map inr net ++ rest ->
  length net0 = length net ->
  read_weights file read_weight f net0 = net.
Proof.
  induction net as [|w net IH]; intros f [|w0 net0] rest Hf Hlen;
    try discriminate; [reflexivity|].
  cbn [read_weights].
  destruct (read_weight_takes f w0 w (map inr net ++ rest) Hf) as [Hw Hrest].
  destruct (read_weight f w0) as [w' f']. cbn [fst snd] in Hw, Hrest.
  subst w'. f_equal. apply (IH f' net0 rest Hrest).
  simpl in Hlen. lia.
Qed.

Lemma load_after_save path f0 net :
  Z.of_nat (length net) < 2 ^ 32 ->
  open_out path = Some f0 -> unread f0 = [] ->
  exists f,
    save_weights file open_out write_u32 write_weight path net = Returned f /\
    forall (open_in : string -> option file) path' net0,
      open_in path' = Some f ->
      load_weights file open_in read_u32 read_weight path' net0
      = Returned net.
Proof.
  intros Hlen Hout Hempty. unfold save_weights. rewrite Hout.
  eexists. split; [reflexivity|].
  intros open_in path' net0 Hin. unfold load_weights. rewrite Hin.
  rewrite Z.mod_small by lia.
  set (f := fold_left write_weight net _).
  assert (Hf : unread f = inl (Z.of_nat (length net)) :: map inr net).
  { subst f. rewrite unread_written, write_u32_appends, Hempty by lia.
    reflexivity. }
  destruct (read_u32_takes f _ _ Hf) as [Hn Hrest].
  destruct (read_u32 f) as [size f']. cbn [fst snd] in Hn, Hrest. subst size.
  f_equal. apply (read_weights_written net f' _ []).
  - by rewrite app_nil_r.
  - rewrite resize_length. lia.
Qed.

(** X22.  With files that give back what was written to them, in order,
    the tables an agent saves when it is destroyed are the tables of an
    agent made later with the saved file as its [load] option, whatever
    its [init] option asks for: [save_weights] and [load_weights] agree on
    the count at the head of the file and on the order of the tables, as
    long as the count fits 32 bits. *)
Theorem saved_tables_are_loaded_back a path f0 :
  wa_meta a !! "save" = Some path ->
  Z.of_nat (length (wa_net a)) < 2 ^ 32 ->
  open_out path = Some f0 -> unread f0 = [] ->
  exists f,
    weight_agent_delete file open_out write_u32 write_weight a
    = Returned (Some f) /\
    forall stod (open_in : string -> option file) args path' b,
      agent.new args !! "load" = Some path' ->
      open_in path' = Some f ->
      weight_agent_new stod file open_in read_u32 read_weight args
      = Returned b ->
      wa_net b = wa_net a.
Proof.
  intros Hsave Hlen Hout Hempty.
  destruct (load_after_save path f0 (wa_net a) Hlen Hout Hempty)
    as (f & Hs & Hl).
  exists f. split.
  - unfold weight_agent_delete. rewrite Hsave, Hs. reflexivity.
  - intros stod open_in args path' b Hload Hin.
    unfold weight_agent_new. rewrite Hload.
    destruct (agent.new args !! "init") as [info|]; cbn [bind];
      rewrite (Hl open_in path' _ Hin); cbn [bind];
      (destruct (agent.new args !! "alpha") as [value|]; cbn [bind];
       [destruct (to_numeric stod value); cbn [bind]; [|discriminate..]|];
       by intros [= <-]).
Qed.

End SaveThenLoad.

Lemma saved_tables_are_loaded_back_witness :
  exists f,
    weight_agent_delete Sample.tape (fun _ => Some []) Sample.tape_write_u32
                        Sample.tape_write_weight Sample.keeper
    = Returned (Some f) /\
    forall stod (open_in : string -> option Sample.tape) args path' b,
      agent.new args !! "load" = Some path' ->
      open_in path' = Some f ->
      weight_agent_new stod Sample.tape open_in Sample.tape_read_u32
                       Sample.tape_read_weight args
      = Returned b ->
      wa_net b = wa_net Sample.keeper.
Proof.
  apply (saved_tables_are_loaded_back Sample.tape Sample.tape_read_u32
           Sample.tape_read_weight (fun _ => Some [])
           Sample.tape_write_u32 Sample.tape_write_weight (fun f => f)
           ltac:(reflexivity) ltac:(reflexivity)
           ltac:(intros f n rest ->; split; reflexivity)
           ltac:(intros f w0 w rest ->; split; reflexivity)
           Sample.keeper "w.bin" []).
  - vm_compute. reflexivity.
  - simpl. lia.
  - reflexivity.
  - reflexivity.
Defined.
